(** * elbisaur: listen filters and listen modifiers

    A shallow embedding of [listen_filter.ts] ([getListenFilter], [compare])
    and of [listen_modifier.ts] ([getListenModifier]), with the fragment of
    the JavaScript semantics these two files rely on: IEEE-754 numbers,
    [Number(...)], truthiness, [&&], [||], [??], regular expressions with
    ordered alternation and greedy quantifiers, [String.prototype.split],
    property reads and writes on ordinary objects.

    Of [cli.ts] it embeds [makeValidIndexTypes], the loop of the statistics
    that counts the values of a key, and the loop of the import command that
    submits the accepted listens in batches.

    Conventions of the model.
    - A JavaScript number is a [spec_float] of binary64 ([prec = 53],
      [emax = 1024]); NaN is [S754_nan].
    - A JavaScript string is a [string]; an [ascii] stands for a code unit
      below 256.
    - Code that throws returns [Throw e]; code that calls [console.warn]
      returns the emitted lines, oldest first, beside its outcome.
    - Functions of the host and of imported packages that the sources call
      ([String.prototype.localeCompare], [Number.prototype.toString],
      [timestamp], [Deno.readTextFile], [parseYaml]) are variables of the
      section [Elbisaur]; [cleanListen], [setSubmissionClient] and
      [client.import], which the import command calls, are variables of
      the section [ImportCommand]. *)

From Stdlib Require Import ZArith List String Ascii Bool Lia.
From Stdlib Require Import Floats.SpecFloat.
Import ListNotations.

Set Warnings "-register-all".

Open Scope string_scope.
Open Scope list_scope.

(** ** Numbers *)

Definition number : Type := spec_float.

Definition prec : Z := 53.
Definition emax : Z := 1024.

Definition NaN : number := S754_nan.
Definition Infinity : number := S754_infinity false.
Definition zero : number := S754_zero false.

(** The number nearest to an integer (ties to even). *)
Definition num_of_Z (z : Z) : number := binary_normalize prec emax z 0 false.

Definition one : number := num_of_Z 1.

Definition isNaN (x : number) : bool :=
  match x with S754_nan => true | _ => false end.

(** [x - y], [x === y], [x < y], [x <= y], [x > y], [x >= y] on numbers. *)
Definition num_sub (x y : number) : number := SFsub prec emax x y.
Definition num_eq (x y : number) : bool := SFeqb x y.
Definition num_lt (x y : number) : bool := SFltb x y.
Definition num_le (x y : number) : bool := SFleb x y.
Definition num_gt (x y : number) : bool := SFltb y x.
Definition num_ge (x y : number) : bool := SFleb y x.






(** ** Strings *)

Definition code (c : ascii) : N := N_of_ascii c.

Definition in_range (lo hi : N) (c : ascii) : bool :=
  ((lo <=? code c) && (code c <=? hi))%N.

(** The double quote, as a one-character string. *)
Definition dquote : string := String (ascii_of_N 34) "".

(** [`"${s}"`] *)
Definition quoted (s : string) : string := dquote ++ s ++ dquote.

Fixpoint strip_prefix (p s : string) : option string :=
  match p, s with
  | EmptyString, _ => Some s
  | String a p', String b s' =>
      if Ascii.eqb a b then strip_prefix p' s' else None
  | String _ _, EmptyString => None
  end.

Definition starts_with (p s : string) : bool :=
  match strip_prefix p s with Some _ => true | None => false end.

Fixpoint take (n : nat) (s : string) : string :=
  match n, s with
  | S n', String c s' => String c (take n' s')
  | _, _ => EmptyString
  end.

Definition is_empty (s : string) : bool :=
  match s with EmptyString => true | _ => false end.


(** The decimal digits of a natural number, as [String(n)] prints an array
    index. *)
Fixpoint digits_fuel (fuel : nat) (n : N) (acc : string) : string :=
  match fuel with
  | O => acc
  | S fuel' =>
      let acc' := String (ascii_of_N (48 + n mod 10)) acc in
      if (n <? 10)%N then acc' else digits_fuel fuel' (n / 10)%N acc'
  end.

Definition index_string (n : nat) : string :=
  digits_fuel (S n) (N.of_nat n) "".

(** ** [StringToNumber]: what [Number(s)] computes for a string *)

(** [StrWhiteSpaceChar]: TAB, LF, VT, FF, CR, SP and NBSP are the ones
    below 256. *)
Definition isStrWhiteSpaceChar (c : ascii) : bool :=
  in_range 9 13 c || N.eqb (code c) 32 || N.eqb (code c) 160.

Fixpoint trimStart (s : string) : string :=
  match s with
  | String c s' => if isStrWhiteSpaceChar c then trimStart s' else s
  | EmptyString => EmptyString
  end.

Fixpoint trimEnd (s : string) : string :=
  match s with
  | EmptyString => EmptyString
  | String c s' =>
      let t := trimEnd s' in
      if is_empty t && isStrWhiteSpaceChar c then EmptyString else String c t
  end.

Definition trim (s : string) : string := trimEnd (trimStart s).

(** The value of a digit in a radix up to 16, if it is one. *)
Definition digit_value (radix : N) (c : ascii) : option Z :=
  let d :=
    if in_range 48 57 c then Some (code c - 48)%N
    else if in_range 97 102 c then Some (code c - 87)%N
    else if in_range 65 70 c then Some (code c - 55)%N
    else None in
  match d with
  | Some n => if (n <? radix)%N then Some (Z.of_N n) else None
  | None => None
  end.

(** The longest run of digits at the head of [s]: the integer it denotes, how
    many digits it has, and what follows it. *)
Fixpoint read_digits (radix : N) (s : string) (acc : Z) (n : nat)
  : Z * nat * string :=
  match s with
  | String c s' =>
      match digit_value radix c with
      | Some d => read_digits radix s' (acc * Z.of_N radix + d) (S n)
      | None => (acc, n, s)
      end
  | EmptyString => (acc, n, s)
  end.

(** An optional sign: [true] for a minus. *)
Definition read_sign (s : string) : bool * string :=
  match s with
  | String c s' =>
      if N.eqb (code c) 45 then (true, s')
      else if N.eqb (code c) 43 then (false, s')
      else (false, s)
  | EmptyString => (false, s)
  end.

(** [ExponentPart opt] followed by the end of the string. *)
Definition read_exponent (s : string) : option Z :=
  match s with
  | EmptyString => Some 0%Z
  | String c s' =>
      if N.eqb (code c) 101 || N.eqb (code c) 69 then
        let '(neg, s1) := read_sign s' in
        match read_digits 10 s1 0 0 with
        | (_, O, _) => None
        | (e, S _, EmptyString) => Some (if neg then (- e)%Z else e)
        | (_, S _, String _ _) => None
        end
      else None
  end.

(** The number nearest to [m * 10 ^ e] (ties to even), with the sign
    [neg]. *)
Definition round_decimal (neg : bool) (m e : Z) : number :=
  match m with
  | Zpos p =>
      if (0 <=? e)%Z then
        binary_normalize prec emax
          (if neg then (- (m * 10 ^ e))%Z else (m * 10 ^ e)%Z) 0 false
      else
        match (10 ^ (- e))%Z with
        | Zpos q => SFdiv prec emax (S754_finite neg p 0) (S754_finite false q 0)
        | _ => NaN
        end
  | _ => S754_zero neg
  end.

(** [StrUnsignedDecimalLiteral]: [Infinity], or digits with an optional
    fraction and exponent; at least one digit before the exponent. *)
Definition strUnsignedDecimalLiteral (neg : bool) (s : string) : number :=
  if String.eqb s "Infinity" then S754_infinity neg
  else
    let '(int_part, n_int, s1) := read_digits 10 s 0 0 in
    let '(mantissa, n_frac, s2) :=
      match s1 with
      | String c s1' =>
          if N.eqb (code c) 46 then read_digits 10 s1' int_part 0
          else (int_part, O, s1)
      | EmptyString => (int_part, O, s1)
      end in
    match (n_int + n_frac)%nat with
    | O => NaN
    | S _ =>
        match read_exponent s2 with
        | Some e => round_decimal neg mantissa (e - Z.of_nat n_frac)
        | None => NaN
        end
    end.

(** [NonDecimalIntegerLiteral]: [0x], [0o] or [0b] and digits in that radix. *)
Definition nonDecimalIntegerLiteral (s : string) : option number :=
  match s with
  | String z (String r s') =>
      let radix :=
        if N.eqb (code r) 120 || N.eqb (code r) 88 then Some 16%N
        else if N.eqb (code r) 111 || N.eqb (code r) 79 then Some 8%N
        else if N.eqb (code r) 98 || N.eqb (code r) 66 then Some 2%N
        else None in
      match N.eqb (code z) 48, radix with
      | true, Some b =>
          match read_digits b s' 0 0 with
          | (n, S _, EmptyString) => Some (num_of_Z n)
          | _ => Some NaN
          end
      | _, _ => None
      end
  | _ => None
  end.

Definition StringToNumber (s : string) : number :=
  let t := trim s in
  if is_empty t then zero
  else
    match nonDecimalIntegerLiteral t with
    | Some n => n
    | None => let '(neg, t') := read_sign t in strUnsignedDecimalLiteral neg t'
    end.

(** ** Values *)

(** A JavaScript value. An ordinary object is the list of its own
    properties, in the order [Object.entries] lists them; [JsFunction name]
    is the built-in function [name]. *)
Inductive js_value : Type :=
| JsUndefined
| JsNull
| JsBoolean (b : bool)
| JsNumber (n : number)
| JsString (s : string)
| JsArray (items : list js_value)
| JsObject (props : list (string * js_value))
| JsFunction (name : string).

Definition js_object : Type := list (string * js_value).

(** [Array.isArray(v)] *)
Definition isArray (v : js_value) : bool :=
  match v with JsArray _ => true | _ => false end.

(** The kinds [compare] accepts. *)
Definition is_scalar (v : js_value) : bool :=
  match v with
  | JsUndefined | JsNull | JsBoolean _ | JsNumber _ | JsString _ => true
  | JsArray _ | JsObject _ | JsFunction _ => false
  end.

(** [ToBoolean]: [undefined], [null], [false], [0], [-0], [NaN] and the
    empty string are falsy, every other value is truthy. *)
Definition ToBoolean (v : js_value) : bool :=
  match v with
  | JsUndefined | JsNull => false
  | JsBoolean b => b
  | JsNumber (S754_zero _) | JsNumber S754_nan => false
  | JsNumber _ => true
  | JsString s => negb (is_empty s)
  | JsArray _ | JsObject _ | JsFunction _ => true
  end.

(** [!a], [a && b], [a || b], [a ?? b]; the operands are values here, which
    is all the sources need (no operand has an effect). *)
Definition js_not (a : js_value) : js_value := JsBoolean (negb (ToBoolean a)).
Definition js_and (a b : js_value) : js_value := if ToBoolean a then b else a.
Definition js_or (a b : js_value) : js_value := if ToBoolean a then a else b.
Definition js_coalesce (a b : js_value) : js_value :=
  match a with JsUndefined | JsNull => b | _ => a end.

Fixpoint join (sep : string) (l : list string) : string :=
  match l with
  | [] => ""
  | [x] => x
  | x :: l' => x ++ sep ++ join sep l'
  end.

(** ** Ordinary objects *)

Fixpoint obj_get_own (k : string) (o : js_object) : option js_value :=
  match o with
  | [] => None
  | (k', v) :: o' => if String.eqb k' k then Some v else obj_get_own k o'
  end.

(** Writes the own property [k]: in place when the object has it, as its
    last property otherwise. *)
Fixpoint obj_set_own (k : string) (v : js_value) (o : js_object) : js_object :=
  match o with
  | [] => [(k, v)]
  | (k', v') :: o' =>
      if String.eqb k' k then (k, v) :: o' else (k', v') :: obj_set_own k v o'
  end.

(** The data properties of [Object.prototype], which every ordinary object
    inherits. *)
Definition Object_prototype : js_object :=
  [ ("constructor", JsFunction "Object");
    ("__defineGetter__", JsFunction "__defineGetter__");
    ("__defineSetter__", JsFunction "__defineSetter__");
    ("hasOwnProperty", JsFunction "hasOwnProperty");
    ("__lookupGetter__", JsFunction "__lookupGetter__");
    ("__lookupSetter__", JsFunction "__lookupSetter__");
    ("isPrototypeOf", JsFunction "isPrototypeOf");
    ("propertyIsEnumerable", JsFunction "propertyIsEnumerable");
    ("toString", JsFunction "toString");
    ("valueOf", JsFunction "valueOf");
    ("toLocaleString", JsFunction "toLocaleString") ].

(** What a read finds on the prototype when the object has no own property
    [k]; [__proto__] is an accessor of [Object.prototype] whose getter
    answers the prototype. *)
Definition inherited (k : string) : js_value :=
  if String.eqb k "__proto__" then JsObject Object_prototype
  else match obj_get_own k Object_prototype with
       | Some v => v
       | None => JsUndefined
       end.

(** [o[k]] *)
Definition obj_get (k : string) (o : js_object) : js_value :=
  match obj_get_own k o with
  | Some v => v
  | None => inherited k
  end.

(** [o[k] = v] for a primitive [v]: the key becomes or stays an own
    property, except for [__proto__] on an object that has no own property
    of that name, where the assignment reaches the setter of the inherited
    accessor, which ignores a value that is neither an object nor [null]. *)
Definition obj_set (k : string) (v : js_value) (o : js_object) : js_object :=
  if String.eqb k "__proto__" then
    match obj_get_own k o with
    | Some _ => obj_set_own k v o
    | None => o
    end
  else obj_set_own k v o.

(** ** Outcomes, and computations that may warn *)

Inductive error : Type :=
| ValidationError (message : string)
| TypeError (message : string)
| HostError (message : string).

Inductive outcome (A : Type) : Type :=
| Ok (a : A)
| Throw (e : error).
Arguments Ok {A} a.
Arguments Throw {A} e.

Definition obind {A B : Type} (m : outcome A) (f : A -> outcome B) : outcome B :=
  match m with
  | Ok a => f a
  | Throw e => Throw e
  end.

(** A computation that writes lines with [console.warn] and then returns or
    throws. *)
Definition M (A : Type) : Type := list string * outcome A.

Definition ret {A : Type} (a : A) : M A := ([], Ok a).
Definition warn (line : string) : M unit := ([line], Ok tt).
Definition lift {A : Type} (m : outcome A) : M A := ([], m).

Definition bind {A B : Type} (m : M A) (f : A -> M B) : M B :=
  match m with
  | (w, Ok a) => let '(w', r) := f a in (w ++ w', r)
  | (w, Throw e) => (w, Throw e)
  end.

Declare Scope js_scope.
Delimit Scope js_scope with js.
Notation "x <- m ;; k" := (bind m (fun x => k))
  (at level 61, m at next level, right associativity) : js_scope.
Notation "m ;; k" := (bind m (fun _ => k))
  (at level 61, right associativity) : js_scope.
Notation "x <-- m ;; k" := (obind m (fun x => k))
  (at level 61, m at next level, right associativity) : js_scope.
Open Scope js_scope.

(** [l.map(f)] for an [f] that may throw. *)
Fixpoint map_outcome {A B : Type} (f : A -> outcome B) (l : list A)
  : outcome (list B) :=
  match l with
  | [] => Ok []
  | x :: l' => y <-- f x ;; ys <-- map_outcome f l' ;; Ok (y :: ys)
  end.

(** [l.some(f)] and [l.every(f)]: the callback's result is read by
    [ToBoolean], and the first decisive element ends the loop. *)
Fixpoint some {A : Type} (f : A -> M js_value) (l : list A) : M bool :=
  match l with
  | [] => ret false
  | x :: l' => v <- f x ;; if ToBoolean v then ret true else some f l'
  end.

Fixpoint every {A : Type} (f : A -> M js_value) (l : list A) : M bool :=
  match l with
  | [] => ret true
  | x :: l' => v <- f x ;; if ToBoolean v then every f l' else ret false
  end.

(** [Object.entries(v)]: the own enumerable string-keyed properties. *)
Fixpoint indexed {A : Type} (f : A -> js_value) (i : nat) (l : list A)
  : list (string * js_value) :=
  match l with
  | [] => []
  | x :: l' => (index_string i, f x) :: indexed f (S i) l'
  end.

Definition Object_entries (v : js_value) : outcome (list (string * js_value)) :=
  match v with
  | JsUndefined | JsNull =>
      Throw (TypeError "Cannot convert undefined or null to object")
  | JsObject props => Ok props
  | JsArray items => Ok (indexed (fun x => x) 0 items)
  | JsString s =>
      Ok (indexed (fun c => JsString (String c "")) 0 (list_ascii_of_string s))
  | JsBoolean _ | JsNumber _ | JsFunction _ => Ok []
  end.

(** ** Regular expressions *)

(** The constructs the two patterns of the sources use. [Alt r1 r2] tries
    [r1] first; [Star p] is the greedy [p*] of a character class; [Group]
    is a named capture. *)
Inductive regex : Type :=
| Chars (p : ascii -> bool)
| Lit (s : string)
| Seq (r1 r2 : regex)
| Alt (r1 r2 : regex)
| Star (p : ascii -> bool)
| Group (name : string) (r : regex).

(** [p+] *)
Definition Plus (p : ascii -> bool) : regex := Seq (Chars p) (Star p).

Definition captures : Type := list (string * string).

(** The greedy loop: one more character of the class when there is one and
    the rest of the pattern ([k]) then matches, none otherwise. *)
Fixpoint star_match {R : Type} (p : ascii -> bool) (s : string)
  (k : string -> option R) : option R :=
  match s with
  | String c s' =>
      if p c then
        match star_match p s' k with
        | Some r => Some r
        | None => k s
        end
      else k s
  | EmptyString => k s
  end.

(** The backtracking matcher: [run r s g k] matches [r] at the head of [s]
    and hands the captures and the unread rest to [k], the rest of the
    pattern; when [k] fails, the next way to match [r] is tried. *)
Fixpoint run (r : regex) (s : string) (g : captures)
  (k : captures -> string -> option captures) : option captures :=
  match r with
  | Chars p =>
      match s with
      | String c s' => if p c then k g s' else None
      | EmptyString => None
      end
  | Lit t =>
      match strip_prefix t s with
      | Some s' => k g s'
      | None => None
      end
  | Seq r1 r2 => run r1 s g (fun g' s' => run r2 s' g' k)
  | Alt r1 r2 =>
      match run r1 s g k with
      | Some x => Some x
      | None => run r2 s g k
      end
  | Star p => star_match p s (k g)
  | Group name r1 =>
      run r1 s g
        (fun g' s' => k (g' ++ [(name, take (length s - length s') s)]) s')
  end.

(** [s.match(/^r/)?.groups]: the pattern is anchored at the start of [s]
    only. *)
Definition exec (r : regex) (s : string) : option captures :=
  run r s [] (fun g _ => Some g).

Fixpoint group (name : string) (g : captures) : string :=
  match g with
  | [] => ""
  | (n, v) :: g' => if String.eqb n name then v else group name g'
  end.

(** [\w] *)
Definition word_char (c : ascii) : bool :=
  in_range 48 57 c || in_range 65 90 c || in_range 97 122 c
  || N.eqb (code c) 95.

(** [.]: any character but a line terminator (LF and CR are the ones below
    256). *)
Definition dot (c : ascii) : bool :=
  negb (N.eqb (code c) 10 || N.eqb (code c) 13).

(** [s.split(sep)] for a non-empty [sep]: [skip] counts the characters of a
    separator still to pass over, [piece] is the piece being read. *)
Fixpoint split_from (sep : string) (skip : nat) (s piece : string)
  : list string :=
  match s with
  | EmptyString => [piece]
  | String c s' =>
      match skip with
      | S n => split_from sep n s' piece
      | O =>
          if starts_with sep s
          then piece :: split_from sep (length sep - 1) s' ""
          else split_from sep 0 s' (piece ++ String c "")
      end
  end.

Definition split (sep s : string) : list string := split_from sep 0 s "".

(** ** Listens *)

(** Modelled from the spec: the types [Track] and [Listen] of the package
    [@kellnerd/listenbrainz], which the sources import; a record has an
    event timestamp, the primary fields the sources name ([track_name],
    [artist_name], [release_name]) and an optional secondary namespace
    [additional_info]. An absent primary field reads [JsUndefined]. *)
Record Track : Type := mkTrack {
  track_name : js_value;
  artist_name : js_value;
  release_name : js_value;
  additional_info : option js_object
}.

Record Listen : Type := mkListen {
  listened_at : number;
  track_metadata : Track
}.

(** [track[key]] *)
Definition track_get (key : string) (track : Track) : js_value :=
  if String.eqb key "track_name" then track_name track
  else if String.eqb key "artist_name" then artist_name track
  else if String.eqb key "release_name" then release_name track
  else if String.eqb key "additional_info" then
    match additional_info track with
    | Some info => JsObject info
    | None => JsUndefined
    end
  else inherited key.

(** ** Conditions *)

Inductive Operator : Type := OpEq | OpNe | OpLe | OpLt | OpGe | OpGt | OpXor.

Definition operator_token (op : Operator) : string :=
  match op with
  | OpEq => "=="
  | OpNe => "!="
  | OpLe => "<="
  | OpLt => "<"
  | OpGe => ">="
  | OpGt => ">"
  | OpXor => "^"
  end.

(** The operators in the order of the pattern's alternation. *)
Definition operators : list Operator :=
  [OpEq; OpNe; OpLe; OpLt; OpGe; OpGt; OpXor].

Definition operator_of_token (t : string) : option Operator :=
  find (fun op => String.eqb (operator_token op) t) operators.


(** [{ key, operator, value }] with [value: string | string[]]. *)
Record condition : Type := mkCondition {
  key : string;
  operator : Operator;
  value : js_value
}.

(** The pattern of a filter expression: at the start of the string a group
    [key] of one or more [\w], a group [operator] that is one of
    [==|!=|<=|<|>=|>|\^] in this order, and a group [value] of any number of
    [.]; nothing anchors its end. *)
Definition operatorPattern : regex :=
  Alt (Lit "==") (Alt (Lit "!=") (Alt (Lit "<=") (Alt (Lit "<")
    (Alt (Lit ">=") (Alt (Lit ">") (Lit "^")))))).

Definition filterPattern : regex :=
  Seq (Group "key" (Plus word_char))
    (Seq (Group "operator" operatorPattern) (Group "value" (Star dot))).

(** The callback of [filterSpecification.split("&&").map]. The cast of the
    groups to a condition reads the captured operator as one of the seven
    tokens; the pattern captures nothing else, so the [TypeError] below is
    never thrown (see [parseCondition_tokenize]). *)
Definition parseCondition (expression : string) : outcome condition :=
  match exec filterPattern expression with
  | Some g =>
      match operator_of_token (group "operator" g) with
      | Some op => Ok (mkCondition (group "key" g) op (JsString (group "value" g)))
      | None => Throw (TypeError "The operator is none of the seven tokens")
      end
  | None =>
      Throw (ValidationError ("Invalid filter expression " ++ quoted expression))
  end.

(** *** The grammar of a clause, in the words of the specification

    A clause is [key operator rest-of-clause], where the operator is the
    longest token of the seven that matches after the key. The definitions
    below say this without a regular expression; [parseCondition] is
    compared with them. *)

Fixpoint take_while (p : ascii -> bool) (s : string) : string :=
  match s with
  | String c s' => if p c then String c (take_while p s') else EmptyString
  | EmptyString => EmptyString
  end.

Fixpoint drop_while (p : ascii -> bool) (s : string) : string :=
  match s with
  | String c s' => if p c then drop_while p s' else s
  | EmptyString => EmptyString
  end.

Fixpoint drop (n : nat) (s : string) : string :=
  match n, s with
  | S n', String _ s' => drop n' s'
  | _, _ => s
  end.

(** Of the operators whose token is at the head of [s], one with the
    longest token. *)
Definition longest_operator (s : string) : option Operator :=
  fold_left
    (fun best op =>
       if starts_with (operator_token op) s then
         match best with
         | Some b =>
             if (length (operator_token b) <? length (operator_token op))%nat
             then Some op else best
         | None => Some op
         end
       else best)
    operators None.

(** The key is the run of word characters at the head of the clause, the
    operator the longest token after it, the operand the rest of the line. *)
Definition tokenize (expression : string)
  : option (string * Operator * string) :=
  let k := take_while word_char expression in
  let rest := drop_while word_char expression in
  if is_empty k then None
  else
    match longest_operator rest with
    | Some op =>
        Some (k, op, take_while dot (drop (length (operator_token op)) rest))
    | None => None
    end.

(** What the ordered alternation of [operatorPattern] picks at the head of
    [s]: the first operator, in the order of the pattern, whose token is
    there. *)
Definition first_operator (s : string) : option Operator :=
  find (fun op => starts_with (operator_token op) s) operators.

(** The captures of the operator and of the operand, from the rest [s] of
    the clause after the key. *)
Definition tail_captures (g : captures) (s : string) (op : Operator)
  : captures :=
  (g ++ [("operator", operator_token op)])
    ++ [("value", take_while dot (drop (length (operator_token op)) s))].

(** ** Edits *)

(** [{ key, operator: "=", value }] *)
Record edit : Type := mkEdit {
  edit_key : string;
  edit_value : string
}.

(** The pattern of an edit expression: at the start of the string a group
    [key] of one or more [\w], a group [operator] that is [=], and a group
    [value] of any number of [.]. *)
Definition editPattern : regex :=
  Seq (Group "key" (Plus word_char))
    (Seq (Group "operator" (Lit "=")) (Group "value" (Star dot))).

Definition parseEdit (expression : string) : outcome edit :=
  match exec editPattern expression with
  | Some g => Ok (mkEdit (group "key" g) (group "value" g))
  | None =>
      Throw (ValidationError ("Invalid edit expression " ++ quoted expression))
  end.


(** [track.additional_info ?? {}] *)
Definition info_of (track : Track) : js_object :=
  match additional_info track with
  | Some info => info
  | None => []
  end.

(** The body of the loop over the edits: the three primary keys write the
    field of the track, any other key writes into [additional_info], which
    [??=] creates when it is absent. *)
Definition applyEdit (track : Track) (e : edit) : Track :=
  let k := edit_key e in
  let v := JsString (edit_value e) in
  if String.eqb k "track_name" then
    mkTrack v (artist_name track) (release_name track) (additional_info track)
  else if String.eqb k "artist_name" then
    mkTrack (track_name track) v (release_name track) (additional_info track)
  else if String.eqb k "release_name" then
    mkTrack (track_name track) (artist_name track) v (additional_info track)
  else
    mkTrack (track_name track) (artist_name track) (release_name track)
      (Some (obj_set k v (info_of track))).

(** The function [getListenModifier] returns. *)
Definition listenModifier (edits : option (list edit)) (listen : Listen)
  : Listen :=
  match edits with
  | None => listen
  | Some es =>
      mkListen (listened_at listen)
        (fold_left applyEdit es (track_metadata listen))
  end.

Definition getListenModifier (expressions : option (list string))
  : outcome (Listen -> Listen) :=
  match expressions with
  | None => Ok (listenModifier None)
  | Some l => es <-- map_outcome parseEdit l ;; Ok (listenModifier (Some es))
  end.

(** [options] of [getListenFilter]; [None] is an absent option. *)
Record options : Type := mkOptions {
  after : option string;
  before : option string;
  excludeList : option string;
  includeList : option string
}.

(** [o ? f(o) : d] for an optional string [o]: an absent and an empty string
    are falsy. *)
Definition if_given {A : Type} (o : option string) (f : string -> A) (d : A)
  : A :=
  match o with
  | Some s => if is_empty s then d else f s
  | None => d
  end.

(** [`${o}`] for an optional string. *)
Definition shown (o : option string) : string :=
  match o with
  | Some s => s
  | None => "undefined"
  end.

(** ** A sample host

    One choice of the host functions, used to run the definitions on
    concrete inputs. *)

(** Compares code unit by code unit. *)
Definition ordinalCompare (a b : string) : number :=
  match String.compare a b with
  | Lt => num_of_Z (-1)
  | Eq => zero
  | Gt => num_of_Z 1
  end.

(** Prints the integer part of a finite number. *)
Definition integerToString (n : number) : string :=
  match n with
  | S754_nan => "NaN"
  | S754_infinity s => if s then "-Infinity" else "Infinity"
  | S754_zero _ => "0"
  | S754_finite s m e =>
      (if s then "-" else "") ++ digits_fuel 400 (Z.to_N (Z.shiftl (Zpos m) e)) ""
  end.

(** Reads a date given as seconds since the epoch. *)
Definition epochSeconds (text : string) : number := StringToNumber text.

(** A file system with the one file [exclude.yaml]. *)
Definition sampleFiles (path : string) : outcome string :=
  if String.eqb path "exclude.yaml" then Ok "artist_name: Foo"
  else Throw (HostError ("No such file: " ++ path)).

Definition sampleYaml (content : string) : outcome js_value :=
  if String.eqb content "artist_name: Foo"
  then Ok (JsObject [("artist_name", JsString "Foo")])
  else Throw (HostError "YAML syntax error").

Definition sampleTrack : Track :=
  mkTrack (JsString "Song") (JsString "Artist") JsUndefined None.

(** A listen with two tags. *)
Definition taggedListen : Listen :=
  mkListen (num_of_Z 1700000000)
    (mkTrack (JsString "Song") (JsString "Artist") JsUndefined
       (Some [("tags", JsArray [JsString "rock"; JsString "pop"])])).

(** A predicate that accepts every listen. *)
Definition acceptAll (listen : Listen) : M bool := ret true.


(** A package that leaves a listen and a track as they are, a client that
    accepts every batch, and one that is offline for every batch that is
    not full. *)
Definition keepListen (listen : Listen) : Listen := listen.

Definition keepTrack (track : Track) (name version : string) : Track := track.

Definition acceptBatch (listens : list Listen) : outcome unit := Ok tt.

Definition acceptFullBatch (listens : list Listen) : outcome unit :=
  if (List.length listens =? 100)%nat then Ok tt
  else Throw (HostError "offline").

Section Elbisaur.

Set Default Proof Using "Type".

(** [a.localeCompare(b)] *)
Variable localeCompare : string -> string -> number.
(** [String(n)] for a number. *)
Variable NumberToString : number -> string.
(** [timestamp(text)] of [@kellnerd/listenbrainz/timestamp]: NaN for a text
    that is no date. *)
Variable timestamp : string -> number.
(** [await Deno.readTextFile(path)] *)
Variable readTextFile : string -> outcome string.
(** [parse(content)] of [@std/yaml] *)
Variable parseYaml : string -> outcome js_value.

(** [ToString]: what a template literal and a string parameter make of a
    value. *)
Fixpoint ToString (v : js_value) : string :=
  match v with
  | JsUndefined => "undefined"
  | JsNull => "null"
  | JsBoolean b => if b then "true" else "false"
  | JsNumber n => NumberToString n
  | JsString s => s
  | JsArray items =>
      join ","
        (map (fun x =>
                match x with
                | JsUndefined | JsNull => ""
                | _ => ToString x
                end) items)
  | JsObject _ => "[object Object]"
  | JsFunction name => "function " ++ name ++ "() { [native code] }"
  end.

(** [Number(v)] *)
Definition Number (v : js_value) : number :=
  match v with
  | JsUndefined => NaN
  | JsNull => zero
  | JsBoolean b => if b then one else zero
  | JsNumber n => n
  | JsString s => StringToNumber s
  | JsArray _ | JsObject _ | JsFunction _ => StringToNumber (ToString v)
  end.

(** [compare(actualValue, value)]. The source types [value] as a string; a
    list source hands it the items of a YAML list as they are, so the model
    takes any value and converts it as [Number(value)] and
    [localeCompare(value)] do. *)
Definition compare (actualValue value : js_value) : outcome number :=
  let actualValue :=
    match actualValue with
    | JsBoolean _ => JsNumber (Number actualValue)
    | JsUndefined | JsNull => JsString ""
    | _ => actualValue
    end in
  match actualValue with
  | JsNumber n => Ok (num_sub n (Number value))
  | JsString s => Ok (localeCompare s (ToString value))
  | _ =>
      Throw (ValidationError
               ("Comparison is not allowed for " ++ ToString actualValue))
  end.

(** [compare(actualValue, value) OP 0] *)
Definition compare_with (test : number -> number -> bool)
  (actualValue value : js_value) : M js_value :=
  n <- lift (compare actualValue value) ;; ret (JsBoolean (test n zero)).

(** Whether [compare(actualValue, v)] returns 0. *)
Definition equal_to (actualValue v : js_value) : bool :=
  match compare actualValue v with
  | Ok n => num_eq n zero
  | Throw _ => false
  end.

(** The callback of [conditions.every], from the actual value on. *)
Definition evaluate (c : condition) (actualValue : js_value) : M js_value :=
  if isArray actualValue then
    warn ("Ignoring condition for " ++ quoted (key c)
          ++ " (has multiple values)") ;;
    ret (JsBoolean true)
  else
    match value c with
    | JsArray values =>
        match operator c with
        | OpEq =>
            b <- some (compare_with num_eq actualValue) values ;;
            ret (JsBoolean b)
        | OpNe =>
            b <- every (compare_with (fun n z => negb (num_eq n z)) actualValue)
                   values ;;
            ret (JsBoolean b)
        | op =>
            warn ("Ignoring condition for " ++ quoted (key c) ++ " ("
                  ++ quoted (operator_token op)
                  ++ " does not accept multiple values)") ;;
            ret (JsBoolean true)
        end
    | v =>
        match operator c with
        | OpEq => compare_with num_eq actualValue v
        | OpNe => compare_with (fun n z => negb (num_eq n z)) actualValue v
        | OpXor =>
            ret (js_or (js_and actualValue (js_not v))
                       (js_and (js_not actualValue) v))
        | OpLe => compare_with num_le actualValue v
        | OpLt => compare_with num_lt actualValue v
        | OpGe => compare_with num_ge actualValue v
        | OpGt => compare_with num_gt actualValue v
        end
    end.

(** [track[key] ?? info[key]] *)
Definition actualValue_of (track : Track) (k : string) : js_value :=
  js_coalesce (track_get k track) (obj_get k (info_of track)).

(** The function [getListenFilter] returns. *)
Definition listenFilter (minTs maxTs : number) (conditions : list condition)
  (listen : Listen) : M bool :=
  if num_le (listened_at listen) minTs || num_ge (listened_at listen) maxTs
  then ret false
  else
    let track := track_metadata listen in
    every (fun c => evaluate c (actualValue_of track (key c))) conditions.

(** The loop of [loadConditionsFromYaml] over the entries of the parsed
    file; [conditions] is the list built so far. *)
Fixpoint pushConditions (path : string) (op : Operator)
  (entries : list (string * js_value)) (conditions : list condition)
  : outcome (list condition) :=
  match entries with
  | [] => Ok conditions
  | (k, values) :: entries' =>
      if isArray values
      then pushConditions path op entries' (conditions ++ [mkCondition k op values])
      else
        Throw (ValidationError
                 (quoted k ++ " from " ++ quoted path ++ " has to be a list"))
  end.

Definition loadConditionsFromYaml (path : string) (op : Operator)
  (conditions : list condition) : outcome (list condition) :=
  content <-- readTextFile path ;;
  excludeMap <-- parseYaml content ;;
  entries <-- Object_entries excludeMap ;;
  pushConditions path op entries conditions.

(** [filterSpecification?.split("&&").map(...) ?? []] *)
Definition parseFilterSpecification (filterSpecification : option string)
  : outcome (list condition) :=
  match filterSpecification with
  | Some spec => map_outcome parseCondition (split "&&" spec)
  | None => Ok []
  end.

Definition getListenFilter (filterSpecification : option string)
  (opts : options) : outcome (Listen -> M bool) :=
  conditions <-- parseFilterSpecification filterSpecification ;;
  let minTs := if_given (after opts) timestamp zero in
  if isNaN minTs
  then Throw (ValidationError ("Invalid date " ++ quoted (shown (after opts))))
  else
    let maxTs := if_given (before opts) timestamp Infinity in
    if isNaN maxTs
    then Throw (ValidationError ("Invalid date " ++ quoted (shown (before opts))))
    else
      conditions <--
        if_given (excludeList opts)
          (fun path => loadConditionsFromYaml path OpNe conditions)
          (Ok conditions) ;;
      conditions <--
        if_given (includeList opts)
          (fun path => loadConditionsFromYaml path OpEq conditions)
          (Ok conditions) ;;
      Ok (listenFilter minTs maxTs conditions).

(** ** Further definitions

    The rest of the filter and of the modifier, and the loops of the
    statistics and of the import command, with what their properties
    are stated in. *)

(** Whether every character of [s] satisfies [p]. *)
Fixpoint all_chars (p : ascii -> bool) (s : string) : bool :=
  match s with
  | EmptyString => true
  | String c s' => p c && all_chars p s'
  end.

(** [sep] occurs in [s]. *)
Definition occurs (sep s : string) : Prop :=
  exists a b : string, s = (a ++ sep ++ b)%string.

(** The condition that the groups [(key, operator, value)] of a clause make. *)
Definition condition_of (t : string * Operator * string) : condition :=
  let '(k, op, v) := t in mkCondition k op (JsString v).

(** No match of [sep] starts inside [piece], read before [s]. *)
Definition unmatched (sep piece s : string) : Prop :=
  forall a b : string,
    piece = (a ++ b)%string -> b <> "" -> starts_with sep (b ++ s) = false.

(** An optional string as a condition reads it: an empty string counts as
    absent. *)
Definition given (o : option string) : option string :=
  match o with
  | Some s => if is_empty s then None else o
  | None => None
  end.

(** The conditions [getListenFilter] builds: a string operand with any
    operator, or a list operand with [==] or [!=]. *)
Definition built (c : condition) : Prop :=
  match value c with
  | JsString _ => True
  | JsArray _ => operator c = OpEq \/ operator c = OpNe
  | _ => False
  end.

(** The line [evaluate] warns with for a list-valued attribute [k]. *)
Definition multiple_values_warning (k : string) : string :=
  "Ignoring condition for " ++ quoted k ++ " (has multiple values)".

(** One condition per entry of a list source. *)
Definition source_conditions (op : Operator) (entries : list (string * js_value))
  : list condition :=
  map (fun kv => mkCondition (fst kv) op (snd kv)) entries.

(** The entries of the list source an option names; none when the option is
    not given. *)
Definition loaded (o : option string) (entries : list (string * js_value)) : Prop :=
  match given o with
  | None => entries = []
  | Some path =>
      exists content source,
        readTextFile path = Ok content
        /\ parseYaml content = Ok source
        /\ Object_entries source = Ok entries
  end.

(** The items of a list. *)
Definition items_of (v : js_value) : list js_value :=
  match v with JsArray items => items | _ => [] end.

(** The last edit of [edits] that names the key [k]. *)
Definition last_edit (k : string) (edits : list edit) : option edit :=
  find (fun e => String.eqb (edit_key e) k) (rev edits).

(** [x + y] on numbers. *)
Definition num_add (x y : number) : number := SFadd prec emax x y.

(** [makeValidIndexTypes(input)] *)
Fixpoint makeValidIndexTypes (input : js_value) : list js_value :=
  match input with
  | JsString _ | JsNumber _ => [input]
  | JsBoolean _ | JsNull => [JsString (ToString input)]
  | JsUndefined => [JsString ""]
  | JsArray items => flat_map makeValidIndexTypes items
  | JsObject _ | JsFunction _ => []
  end.

(** [typeof v === "string" || typeof v === "number"] *)
Definition is_index (v : js_value) : bool :=
  match v with JsString _ | JsNumber _ => true | _ => false end.

(** [track[key] ?? info?.[key]] of the statistics, where [info] is
    [track.additional_info] as it is. *)
Definition statisticsValue (track : Track) (k : string) : js_value :=
  js_coalesce (track_get k track)
    (match additional_info track with
     | Some info => obj_get k info
     | None => JsUndefined
     end).




(** The listens a predicate accepts. *)
Definition accepted (listenFilter : Listen -> M bool) (source : list Listen)
  : list Listen :=
  filter (fun listen =>
            match snd (listenFilter listen) with
            | Ok true => true
            | _ => false
            end) source.





(** What the import command does that can be seen from outside, in order. *)
Inductive event : Type :=
| Warned (line : string)
| Imported (listens : list Listen)
| Informed (count : number).

(** A computation that leaves a trace of events and then returns or
    throws. *)
Definition T (A : Type) : Type := list event * outcome A.

(** Events that precede a computation. *)
Definition after_events {A : Type} (events : list event) (m : T A) : T A :=
  (events ++ fst m, snd m)%list.

Section ImportCommand.

(** [cleanListen(listen)] and [setSubmissionClient(track, client)] of the
    package [@kellnerd/listenbrainz], the latter as what it makes of the
    track for a client of a name and a version; [this.getVersion()];
    [client.import(listens)], which may reject. *)
Variable cleanListen : Listen -> Listen.
Variable setSubmissionClient : Track -> string -> string -> Track.
Variable version : string.
Variable clientImport : list Listen -> outcome unit.

(** [newListen] as the loop pushes it. *)
Definition newListen (listen : Listen) : Listen :=
  let cleaned := cleanListen listen in
  mkListen (listened_at cleaned)
    (setSubmissionClient (track_metadata cleaned) "elbisaur (JSON importer)"
       version).

(** The loop of the import command that submits, over the listens of the
    source, from a buffer and a count. *)
Fixpoint importLoop (listenFilter : Listen -> M bool) (source : list Listen)
  (listenBuffer : list Listen) (count : number)
  : T (list Listen * number) :=
  match source with
  | [] => ([], Ok (listenBuffer, count))
  | listen :: source' =>
      match listenFilter listen with
      | (warnings, Throw e) => (map Warned warnings, Throw e)
      | (warnings, Ok false) =>
          after_events (map Warned warnings)
            (importLoop listenFilter source' listenBuffer count)
      | (warnings, Ok true) =>
          let listenBuffer := (listenBuffer ++ [newListen listen])%list in
          if (100 <=? List.length listenBuffer)%nat then
            match clientImport listenBuffer with
            | Ok _ =>
                let count :=
                  num_add count (num_of_Z (Z.of_nat (List.length listenBuffer))) in
                after_events
                  (map Warned warnings ++ [Imported listenBuffer; Informed count])
                  (importLoop listenFilter source' [] count)
            | Throw e => (map Warned warnings, Throw e)
            end
          else
            after_events (map Warned warnings)
              (importLoop listenFilter source' listenBuffer count)
      end
  end.

(** The branch of the import command that submits: the loop, and then what
    is left in the buffer. *)
Definition importListens (listenFilter : Listen -> M bool)
  (source : list Listen) : T unit :=
  match importLoop listenFilter source [] zero with
  | (trace, Ok (listenBuffer, count)) =>
      match listenBuffer with
      | [] => (trace, Ok tt)
      | _ :: _ =>
          match clientImport listenBuffer with
          | Ok _ =>
              let count :=
                num_add count (num_of_Z (Z.of_nat (List.length listenBuffer))) in
              (trace ++ [Imported listenBuffer; Informed count], Ok tt)%list
          | Throw e => (trace, Throw e)
          end
      end
  | (trace, Throw e) => (trace, Throw e)
  end.

End ImportCommand.

(** The batches a trace submits, and the counts it shows. *)
Definition batches (trace : list event) : list (list Listen) :=
  flat_map (fun ev => match ev with Imported l => [l] | _ => [] end) trace.

Definition informed (trace : list event) : list number :=
  flat_map (fun ev => match ev with Informed n => [n] | _ => [] end) trace.

(** The running totals of the sizes of batches, from [n] on. *)
Fixpoint totals (n : Z) (l : list (list Listen)) : list Z :=
  match l with
  | [] => []
  | b :: l' =>
      let n' := (n + Z.of_nat (List.length b))%Z in n' :: totals n' l'
  end.

(** * Properties *)

(** ** The monad of warnings *)

Lemma bind_ret_l {A B : Type} (a : A) (f : A -> M B) : bind (ret a) f = f a.
Proof. unfold bind, ret. destruct (f a); reflexivity. Qed.

(** ** Numbers *)



(** [Number] on a few literals: an integer, an exponent, a fraction that no
    binary number equals, a hexadecimal integer, blanks, and text. *)
Example StringToNumber_samples :
  StringToNumber "30000" = num_of_Z 30000
  /\ StringToNumber "30e3" = num_of_Z 30000
  /\ StringToNumber "0.1" = S754_finite false 7205759403792794 (-56)
  /\ StringToNumber "-0" = S754_zero true
  /\ StringToNumber "0x1F" = num_of_Z 31
  /\ StringToNumber " 12 " = num_of_Z 12
  /\ StringToNumber "" = zero
  /\ StringToNumber "Infinity" = Infinity
  /\ StringToNumber "1e400" = Infinity
  /\ StringToNumber "12px" = NaN
  /\ StringToNumber "1e" = NaN.
Proof. repeat split; reflexivity. Qed.

(** ** The order of numbers *)

Lemma SFcompare_antisym (x y : number) :
  SFcompare y x = option_map CompOpp (SFcompare x y).
Proof.
  destruct x as [sx | sx | | sx mx ex], y as [sy | sy | | sy my ey];
    try reflexivity;
    try (destruct sx; reflexivity); try (destruct sy; reflexivity);
    try (destruct sx, sy; reflexivity).
  cbn [SFcompare option_map].
  destruct sx, sy; try reflexivity; f_equal;
    rewrite (Z.compare_antisym ex ey);
    destruct (ex ?= ey)%Z; try reflexivity; cbn [CompOpp];
    rewrite (Pos.compare_cont_antisym mx my Eq); reflexivity.
Qed.

Lemma SFcompare_not_NaN (x y : number) :
  isNaN x = false -> isNaN y = false -> exists c, SFcompare x y = Some c.
Proof.
  destruct x, y; simpl; intros Hx Hy; try discriminate; eauto.
Qed.

(** For numbers, [x >= y] is the negation of [x < y]. *)
Lemma num_ge_not_lt (x y : number) :
  isNaN x = false -> isNaN y = false -> num_ge x y = negb (num_lt x y).
Proof.
  intros Hx Hy. unfold num_ge, num_lt, SFleb, SFltb.
  rewrite (SFcompare_antisym x y).
  destruct (SFcompare_not_NaN x y Hx Hy) as [c ->].
  destruct c; reflexivity.
Qed.

Lemma num_le_not_gt (x y : number) :
  isNaN x = false -> isNaN y = false -> num_le x y = negb (num_gt x y).
Proof. intros Hx Hy. apply (num_ge_not_lt y x Hy Hx). Qed.

Lemma num_eq_le (x y : number) : num_eq x y = true -> num_le x y = true.
Proof.
  unfold num_eq, num_le, SFeqb, SFleb.
  destruct (SFcompare x y) as [[]|]; congruence.
Qed.

Lemma num_eq_ge (x y : number) : num_eq x y = true -> num_ge x y = true.
Proof.
  unfold num_eq, num_ge, SFeqb, SFleb. rewrite (SFcompare_antisym x y).
  destruct (SFcompare x y) as [[]|]; simpl; congruence.
Qed.

(** ** The sign of a difference

    Subtraction rounds, but never to the wrong side of zero: on numbers of
    the format the sign of [x - y] is the order of [x] and [y]. [Number]
    reads a string as a number of the format. *)

Section Rounding.

Local Open Scope Z_scope.

Lemma fexp_eq (e : Z) : fexp prec emax e = Z.max (e - 53) (-1074).
Proof. reflexivity. Qed.

Lemma digits2_pos_bounds (m : positive) :
  2 ^ (Zpos (digits2_pos m) - 1) <= Zpos m < 2 ^ Zpos (digits2_pos m).
Proof.
  induction m as [m IH | m IH |]; cbn [digits2_pos].
  - rewrite Pos2Z.inj_succ.
    replace (Z.succ (Zpos (digits2_pos m)) - 1) with (Z.succ (Zpos (digits2_pos m) - 1)) by lia.
    rewrite !Z.pow_succ_r by lia. lia.
  - rewrite Pos2Z.inj_succ.
    replace (Z.succ (Zpos (digits2_pos m)) - 1) with (Z.succ (Zpos (digits2_pos m) - 1)) by lia.
    rewrite !Z.pow_succ_r by lia. lia.
  - cbn. lia.
Qed.




Lemma Zdigits2_bounds (m : Z) : 0 < m -> 2 ^ (Zdigits2 m - 1) <= m /\ 0 < Zdigits2 m.
Proof.
  destruct m as [| p | p]; try lia. intros _. cbn [Zdigits2].
  split; [apply digits2_pos_bounds | lia].
Qed.







Lemma iter_xO (m k : positive) : Zpos (Pos.iter xO m k) = Zpos m * 2 ^ Zpos k.
Proof.
  induction k as [| k IH] using Pos.peano_ind.
  - cbn. lia.
  - rewrite Pos.iter_succ, Pos2Z.inj_xO, IH, Pos2Z.inj_succ, Z.pow_succ_r by lia.
    ring.
Qed.

Lemma shl_align_value (m : positive) (e e' : Z) :
  e' <= e -> Zpos (fst (shl_align m e e')) = Zpos m * 2 ^ (e - e').
Proof.
  intros He. unfold shl_align. destruct (e' - e) as [| p | p] eqn:H; cbn [fst].
  - replace (e - e') with 0 by lia. lia.
  - lia.
  - rewrite iter_xO. f_equal. f_equal. lia.
Qed.




(** ** Rounding yields numbers of the format *)


Lemma Zdigits2_upper (m : Z) : 0 <= m -> m < 2 ^ Zdigits2 m.
Proof.
  destruct m as [| p | p]; try lia; intros _.
  - cbn. lia.
  - apply digits2_pos_bounds.
Qed.

Lemma Zdigits2_unique (m k : Z) :
  0 < m -> 2 ^ (k - 1) <= m < 2 ^ k -> Zdigits2 m = k.
Proof.
  intros Hm [Hlo Hhi]. destruct (Zdigits2_bounds m Hm) as [Hlo' Hd].
  pose proof (Zdigits2_upper m ltac:(lia)) as Hhi'.
  assert (Hk : 0 < k).
  { destruct (Z.ltb_spec 0 k); [assumption |]. exfalso.
    assert (H1 : 2 ^ k <= 1).
    { destruct (Z.eq_dec k 0) as [-> | Hne];
        [cbn; lia | rewrite Z.pow_neg_r by lia; lia]. }
    lia. }
  assert (H1 : Zdigits2 m - 1 < k).
  { apply (Z.pow_lt_mono_r_iff 2); lia. }
  assert (H2 : k - 1 < Zdigits2 m).
  { apply (Z.pow_lt_mono_r_iff 2); lia. }
  lia.
Qed.



Lemma Zdigits2_mul (m k : Z) :
  0 < m -> 0 <= k -> Zdigits2 (m * 2 ^ k) = Zdigits2 m + k.
Proof.
  intros Hm Hk. destruct (Zdigits2_bounds m Hm) as [Hlo Hd].
  pose proof (Zdigits2_upper m ltac:(lia)) as Hhi.
  assert (Hp : 0 < 2 ^ k) by (apply Z.pow_pos_nonneg; lia).
  apply Zdigits2_unique; [nia |].
  replace (Zdigits2 m + k - 1) with (Zdigits2 m - 1 + k) by lia.
  rewrite !Z.pow_add_r by lia. split; nia.
Qed.












End Rounding.

(** ** [compare] *)

Lemma compare_scalar (actualValue value : js_value) :
  is_scalar actualValue = true -> exists n, compare actualValue value = Ok n.
Proof.
  destruct actualValue; simpl; intros H; try discriminate;
    unfold compare; simpl; eauto.
Qed.


(** ** Conditions with a scalar operand *)

Lemma evaluate_scalar_operand (k : string) (op : Operator) (literal : string)
  (actualValue : js_value) :
  isArray actualValue = false ->
  evaluate (mkCondition k op (JsString literal)) actualValue =
    match op with
    | OpEq => compare_with num_eq actualValue (JsString literal)
    | OpNe =>
        compare_with (fun n z => negb (num_eq n z)) actualValue (JsString literal)
    | OpXor =>
        ret (js_or (js_and actualValue (js_not (JsString literal)))
                   (js_and (js_not actualValue) (JsString literal)))
    | OpLe => compare_with num_le actualValue (JsString literal)
    | OpLt => compare_with num_lt actualValue (JsString literal)
    | OpGe => compare_with num_ge actualValue (JsString literal)
    | OpGt => compare_with num_gt actualValue (JsString literal)
    end.
Proof.
  intros H. unfold evaluate. rewrite H. simpl. destruct op; reflexivity.
Qed.

Lemma js_xor_truthiness (a v : js_value) :
  ToBoolean (js_or (js_and a (js_not v)) (js_and (js_not a) v))
  = xorb (ToBoolean a) (ToBoolean v).
Proof.
  unfold js_or, js_and, js_not.
  destruct (ToBoolean a) eqn:Ha; simpl.
  - destruct (ToBoolean v); reflexivity.
  - rewrite Ha. reflexivity.
Qed.

(** C8: for an actual value that is no list and a literal operand, the
    condition [key^literal] passes exactly when one of the two, the actual
    value and the literal string, is truthy and the other is not: a string
    is truthy when it is not empty, a number when it is neither zero nor
    NaN, a boolean when it is [true], [undefined] and [null] never. With
    the literal [""] the actual value 0 fails and the actual value 1
    passes. *)
Theorem xor_truthiness (k literal : string) (actualValue : js_value)
  (Hscalar : isArray actualValue = false) :
  (exists v,
      evaluate (mkCondition k OpXor (JsString literal)) actualValue = ([], Ok v)
      /\ ToBoolean v
         = xorb (ToBoolean actualValue) (ToBoolean (JsString literal)))
  /\ every (fun c => evaluate c actualValue)
       [mkCondition k OpXor (JsString literal)]
     = ([], Ok (xorb (ToBoolean actualValue) (negb (is_empty literal))))
  /\ every (fun c => evaluate c (JsNumber zero)) [mkCondition k OpXor (JsString "")]
     = ([], Ok false)
  /\ every (fun c => evaluate c (JsNumber one)) [mkCondition k OpXor (JsString "")]
     = ([], Ok true).
Proof.
  split; [|split; [|split; reflexivity]].
  - rewrite (evaluate_scalar_operand _ _ _ _ Hscalar).
    eexists; split; [reflexivity | apply js_xor_truthiness].
  - cbn [every]. rewrite (evaluate_scalar_operand _ _ _ _ Hscalar).
    rewrite bind_ret_l. rewrite js_xor_truthiness. simpl ToBoolean.
    destruct (xorb _ _); reflexivity.
Qed.

Lemma compare_with_Ok (test : number -> number -> bool)
  (actualValue v : js_value) (n : number) :
  compare actualValue v = Ok n ->
  compare_with test actualValue v = ret (JsBoolean (test n zero)).
Proof. intros H. unfold compare_with. rewrite H. reflexivity. Qed.



(** ** Conditions that are not evaluable *)

Lemma every_cons_pass {A : Type} (f : A -> M js_value) (x : A) (l : list A)
  (w : list string) (v : js_value) :
  f x = (w, Ok v) -> ToBoolean v = true ->
  every f (x :: l) = (w ++ fst (every f l), snd (every f l)).
Proof.
  intros Hf Hv. cbn [every]. rewrite Hf. unfold bind. rewrite Hv.
  destruct (every f l); reflexivity.
Qed.

(** C3: a condition is not evaluable when the actual value of its key is a
    list, or when its operand is a list and its operator is neither [==] nor
    [!=]. Such a condition warns once and is satisfied: the predicate
    decides the record by the conditions that follow it, and the warning
    comes first. *)
Theorem not_evaluable_is_satisfied (c : condition) (actualValue : js_value)
  (Hnot : isArray actualValue = true
          \/ (isArray (value c) = true
              /\ operator c <> OpEq /\ operator c <> OpNe)) :
  exists line : string,
    evaluate c actualValue = ([line], Ok (JsBoolean true))
    /\ forall (minTs maxTs : number) (conditions : list condition)
         (listen : Listen),
         actualValue_of (track_metadata listen) (key c) = actualValue ->
         (num_le (listened_at listen) minTs
          || num_ge (listened_at listen) maxTs) = false ->
         listenFilter minTs maxTs (c :: conditions) listen
         = (line :: fst (listenFilter minTs maxTs conditions listen),
            snd (listenFilter minTs maxTs conditions listen)).
Proof.
  assert (Hev : exists line, evaluate c actualValue = ([line], Ok (JsBoolean true))).
  { unfold evaluate. destruct (isArray actualValue) eqn:Ha.
    - eexists; reflexivity.
    - destruct Hnot as [Hnot | (Hv & Heq & Hne)]; [discriminate |].
      destruct (value c); try discriminate.
      destruct (operator c); try congruence; eexists; reflexivity. }
  destruct Hev as [line Hev]. exists line. split; [exact Hev |].
  intros minTs maxTs conditions listen Hact Htime.
  unfold listenFilter. rewrite Htime.
  rewrite (every_cons_pass _ c conditions [line] (JsBoolean true)).
  - reflexivity.
  - rewrite Hact. exact Hev.
  - reflexivity.
Qed.

(** ** Conditions with a list operand *)

Lemma some_pure {A : Type} (f : A -> M js_value) (g : A -> bool) (l : list A) :
  (forall x, In x l -> f x = ret (JsBoolean (g x))) ->
  some f l = ret (existsb g l).
Proof.
  induction l as [| x l IH]; intros H; [reflexivity |].
  cbn [some existsb]. rewrite (H x (or_introl eq_refl)), bind_ret_l.
  cbn [ToBoolean]. destruct (g x); [reflexivity |].
  apply IH. intros y Hy. apply H. right; exact Hy.
Qed.

Lemma every_pure {A : Type} (f : A -> M js_value) (g : A -> bool) (l : list A) :
  (forall x, In x l -> f x = ret (JsBoolean (g x))) ->
  every f l = ret (forallb g l).
Proof.
  induction l as [| x l IH]; intros H; [reflexivity |].
  cbn [every forallb]. rewrite (H x (or_introl eq_refl)), bind_ret_l.
  cbn [ToBoolean]. destruct (g x); [| reflexivity].
  apply IH. intros y Hy. apply H. right; exact Hy.
Qed.

Lemma evaluate_list_operand (k : string) (actualValue : js_value)
  (values : list js_value) :
  is_scalar actualValue = true ->
  evaluate (mkCondition k OpEq (JsArray values)) actualValue
  = ret (JsBoolean (existsb (equal_to actualValue) values))
  /\ evaluate (mkCondition k OpNe (JsArray values)) actualValue
     = ret (JsBoolean (forallb (fun v => negb (equal_to actualValue v)) values)).
Proof.
  intros Hs.
  assert (Ha : isArray actualValue = false) by (destruct actualValue; easy).
  unfold evaluate. rewrite Ha. cbn [value operator]. split.
  - rewrite (some_pure _ (equal_to actualValue));
      [rewrite bind_ret_l; reflexivity |].
    intros v _. destruct (compare_scalar actualValue v Hs) as [n Hn].
    unfold equal_to. rewrite Hn. apply compare_with_Ok; exact Hn.
  - rewrite (every_pure _ (fun v => negb (equal_to actualValue v)));
      [rewrite bind_ret_l; reflexivity |].
    intros v _. destruct (compare_scalar actualValue v Hs) as [n Hn].
    unfold equal_to. rewrite Hn.
    apply (compare_with_Ok (fun n z => negb (num_eq n z))); exact Hn.
Qed.

(** C2: for an actual value that is no list nor object and a condition
    whose operand is a list of literals, [==] passes exactly when [compare]
    returns 0 for some literal of the list, and [!=] passes exactly when
    [compare] returns something else than 0 for every literal of the list.
    When [localeCompare] equates a string with itself, [b] passes
    [==] and fails [!=] against the list of [a] and [b]; when it tells [c]
    from [a] and from [b], [c] passes [!=] against that list. *)
Theorem list_operand_semantics (k : string) (actualValue : js_value)
  (values : list js_value)
  (Hscalar : is_scalar actualValue = true)
  (Hbb : num_eq (localeCompare "b" "b") zero = true)
  (Hca : num_eq (localeCompare "c" "a") zero = false)
  (Hcb : num_eq (localeCompare "c" "b") zero = false) :
  (exists b : bool,
      evaluate (mkCondition k OpEq (JsArray values)) actualValue
      = ([], Ok (JsBoolean b))
      /\ (b = true <->
          exists v n, In v values /\ compare actualValue v = Ok n
                      /\ num_eq n zero = true))
  /\ (exists b : bool,
        evaluate (mkCondition k OpNe (JsArray values)) actualValue
        = ([], Ok (JsBoolean b))
        /\ (b = true <->
            forall v, In v values ->
                      exists n, compare actualValue v = Ok n
                                /\ num_eq n zero = false))
  /\ evaluate (mkCondition k OpEq (JsArray [JsString "a"; JsString "b"]))
       (JsString "b") = ([], Ok (JsBoolean true))
  /\ evaluate (mkCondition k OpNe (JsArray [JsString "a"; JsString "b"]))
       (JsString "b") = ([], Ok (JsBoolean false))
  /\ evaluate (mkCondition k OpNe (JsArray [JsString "a"; JsString "b"]))
       (JsString "c") = ([], Ok (JsBoolean true)).
Proof.
  destruct (evaluate_list_operand k actualValue values Hscalar) as [Heq Hne].
  split; [| split].
  - eexists; split; [exact Heq |]. rewrite existsb_exists. split.
    + intros (v & Hin & Hv). unfold equal_to in Hv.
      destruct (compare actualValue v) as [n |] eqn:Hc; [| discriminate].
      exists v, n. auto.
    + intros (v & n & Hin & Hc & Hn). exists v. split; [exact Hin |].
      unfold equal_to. rewrite Hc. exact Hn.
  - eexists; split; [exact Hne |]. rewrite forallb_forall. split.
    + intros H v Hin. specialize (H v Hin).
      destruct (compare_scalar actualValue v Hscalar) as [n Hc].
      unfold equal_to in H. rewrite Hc in H. exists n. split; [exact Hc |].
      destruct (num_eq n zero); [discriminate | reflexivity].
    + intros H v Hin. destruct (H v Hin) as (n & Hc & Hn).
      unfold equal_to. rewrite Hc, Hn. reflexivity.
  - destruct (evaluate_list_operand k (JsString "b")
                [JsString "a"; JsString "b"] eq_refl) as [Heq' Hne'].
    destruct (evaluate_list_operand k (JsString "c")
                [JsString "a"; JsString "b"] eq_refl) as [_ Hne''].
    rewrite Heq', Hne', Hne''. unfold equal_to, compare. cbn [ToString existsb forallb].
    rewrite Hbb, Hca, Hcb.
    destruct (num_eq (localeCompare "b" "a") zero); repeat split; reflexivity.
Qed.

(** ** The predicate [getListenFilter] builds *)

Lemma if_given_Throw {A : Type} (o : option string) (path : string)
  (f : string -> outcome A) (d : outcome A) (e : error) :
  o = Some path -> is_empty path = false -> f path = Throw e ->
  if_given o f d = Throw e.
Proof. intros -> Hp Hf. unfold if_given. rewrite Hp. exact Hf. Qed.

(** A predicate that was built is [listenFilter] at the two bounds, neither
    of which is NaN. *)
Lemma getListenFilter_Ok (filterSpecification : option string)
  (opts : options) (f : Listen -> M bool) :
  getListenFilter filterSpecification opts = Ok f ->
  exists conditions : list condition,
    f = listenFilter (if_given (after opts) timestamp zero)
          (if_given (before opts) timestamp Infinity) conditions
    /\ isNaN (if_given (after opts) timestamp zero) = false
    /\ isNaN (if_given (before opts) timestamp Infinity) = false.
Proof.
  unfold getListenFilter.
  destruct (parseFilterSpecification filterSpecification) as [cs |];
    [| discriminate].
  cbn [obind].
  destruct (isNaN (if_given (after opts) timestamp zero)); [discriminate |].
  destruct (isNaN (if_given (before opts) timestamp Infinity));
    [discriminate |].
  destruct (if_given (excludeList opts) _ _) as [cs1 |]; [| discriminate].
  cbn [obind].
  destruct (if_given (includeList opts) _ _) as [cs2 |]; [| discriminate].
  cbn [obind]. intros H. injection H as <-. exists cs2. auto.
Qed.

(** C4: let [minTs] and [maxTs] be the bounds of a predicate that was built
    ([timestamp(after)] and [timestamp(before)] when the options are given).
    The predicate rejects every listen whose timestamp, a number, is not
    strictly between them, without looking at a condition; a listen
    timestamped exactly at [minTs] or exactly at [maxTs] is rejected. A
    listen strictly inside is decided by the conditions alone. *)
Theorem time_range_is_exclusive (filterSpecification : option string)
  (opts : options) (f : Listen -> M bool)
  (Hbuilt : getListenFilter filterSpecification opts = Ok f) :
  let minTs := if_given (after opts) timestamp zero in
  let maxTs := if_given (before opts) timestamp Infinity in
  (forall a b : string,
      after opts = Some a -> is_empty a = false ->
      before opts = Some b -> is_empty b = false ->
      minTs = timestamp a /\ maxTs = timestamp b)
  /\ exists conditions : list condition,
       forall listen : Listen,
         let t := listened_at listen in
         (isNaN t = false ->
          f listen
          = if num_lt minTs t && num_lt t maxTs
            then every (fun c => evaluate c
                                   (actualValue_of (track_metadata listen) (key c)))
                   conditions
            else ([], Ok false))
         /\ (num_eq t minTs = true -> f listen = ([], Ok false))
         /\ (num_eq t maxTs = true -> f listen = ([], Ok false)).
Proof.
  intros minTs maxTs. split.
  - intros a b Ha Hae Hb Hbe. subst minTs maxTs. unfold if_given.
    rewrite Ha, Hb, Hae, Hbe. auto.
  - destruct (getListenFilter_Ok _ _ _ Hbuilt) as (cs & -> & Hmin & Hmax).
    fold minTs in Hmin |- *. fold maxTs in Hmax |- *.
    exists cs. intros listen t. unfold listenFilter. fold t. repeat split.
    + intros Ht. rewrite (num_le_not_gt t minTs Ht Hmin).
      rewrite (num_ge_not_lt t maxTs Ht Hmax). unfold num_gt.
      fold (num_lt minTs t).
      destruct (num_lt minTs t), (num_lt t maxTs); reflexivity.
    + intros He. rewrite (num_eq_le _ _ He). reflexivity.
    + intros He. rewrite (num_eq_ge _ _ He), orb_true_r. reflexivity.
Qed.

(** C10: without the option [after] the lower bound is 0, and the predicate
    rejects every listen whose timestamp is 0 or less, the epoch itself
    included, whatever the conditions are. *)
Theorem epoch_is_rejected (filterSpecification : option string)
  (opts : options) (f : Listen -> M bool) (listen : Listen)
  (Hbuilt : getListenFilter filterSpecification opts = Ok f)
  (Hafter : after opts = None)
  (Hepoch : num_le (listened_at listen) zero = true) :
  f listen = ([], Ok false)
  /\ forall track : Track, f (mkListen zero track) = ([], Ok false).
Proof.
  destruct (getListenFilter_Ok _ _ _ Hbuilt) as (cs & -> & _ & _).
  unfold listenFilter, if_given. rewrite Hafter. split.
  - rewrite Hepoch. reflexivity.
  - intros track. reflexivity.
Qed.

(** ** List sources *)

Lemma pushConditions_non_list (path : string)
  (entries : list (string * js_value)) :
  (exists k v, In (k, v) entries /\ isArray v = false) ->
  exists k v,
    In (k, v) entries /\ isArray v = false
    /\ forall op conditions,
         pushConditions path op entries conditions
         = Throw (ValidationError
                    (quoted k ++ " from " ++ quoted path ++ " has to be a list")).
Proof.
  induction entries as [| [k0 v0] entries IH]; intros (k & v & Hin & Hv).
  - destruct Hin.
  - destruct (isArray v0) eqn:Hv0.
    + destruct Hin as [Hin | Hin]; [congruence |].
      destruct IH as (k' & v' & Hin' & Hv' & Hthrow); [eauto |].
      exists k', v'. repeat split; [right; exact Hin' | exact Hv' |].
      intros op conditions. cbn [pushConditions]. rewrite Hv0. apply Hthrow.
    + exists k0, v0. repeat split; [left; reflexivity | exact Hv0 |].
      intros op conditions. cbn [pushConditions]. rewrite Hv0. reflexivity.
Qed.

(** C6: take a list source, a file that reads and parses to a mapping, one
    of whose keys has a value that is no list. Loading it throws a
    [ValidationError] whose message quotes such a key and the path of the
    file. So [getListenFilter] returns no predicate when this file is its
    exclude list or its include list, and the error it throws is this one
    when the filter expression parses, both dates are valid and, for the
    include list, no exclude list failed before. *)
Theorem list_source_has_to_map_to_lists (path content : string)
  (source : js_value) (entries : list (string * js_value))
  (Hpath : is_empty path = false)
  (Hread : readTextFile path = Ok content)
  (Hparse : parseYaml content = Ok source)
  (Hentries : Object_entries source = Ok entries)
  (Hbad : exists k v, In (k, v) entries /\ isArray v = false) :
  exists k v,
    In (k, v) entries /\ isArray v = false
    /\ let e := ValidationError
                  (quoted k ++ " from " ++ quoted path ++ " has to be a list") in
       (forall op conditions,
           loadConditionsFromYaml path op conditions = Throw e)
       /\ forall (filterSpecification : option string) (opts : options),
            excludeList opts = Some path \/ includeList opts = Some path ->
            (exists e', getListenFilter filterSpecification opts = Throw e')
            /\ forall conditions : list condition,
                 parseFilterSpecification filterSpecification = Ok conditions ->
                 isNaN (if_given (after opts) timestamp zero) = false ->
                 isNaN (if_given (before opts) timestamp Infinity) = false ->
                 (excludeList opts = Some path
                  \/ exists conditions',
                       if_given (excludeList opts)
                         (fun p => loadConditionsFromYaml p OpNe conditions)
                         (Ok conditions) = Ok conditions') ->
                 getListenFilter filterSpecification opts = Throw e.
Proof.
  destruct (pushConditions_non_list path entries Hbad)
    as (k & v & Hin & Hv & Hpush).
  exists k, v. split; [exact Hin |]. split; [exact Hv |]. cbv zeta.
  assert (Hload : forall op conditions,
             loadConditionsFromYaml path op conditions
             = Throw (ValidationError
                        (quoted k ++ " from " ++ quoted path
                         ++ " has to be a list"))).
  { intros op conditions. unfold loadConditionsFromYaml.
    rewrite Hread. cbn [obind]. rewrite Hparse. cbn [obind].
    rewrite Hentries. cbn [obind]. apply Hpush. }
  split; [exact Hload |].
  intros filterSpecification opts Hsource. split.
  - unfold getListenFilter.
    destruct (parseFilterSpecification filterSpecification) as [cs |];
      [| eexists; reflexivity].
    cbn [obind].
    destruct (isNaN (if_given (after opts) timestamp zero));
      [eexists; reflexivity |].
    destruct (isNaN (if_given (before opts) timestamp Infinity));
      [eexists; reflexivity |].
    destruct (if_given (excludeList opts) _ _) as [cs1 |] eqn:Hex;
      [| eexists; reflexivity].
    cbn [obind]. destruct Hsource as [Hs | Hs].
    + rewrite (if_given_Throw _ path _ _ _ Hs Hpath (Hload OpNe cs)) in Hex.
      discriminate.
    + rewrite (if_given_Throw _ path _ _ _ Hs Hpath (Hload OpEq cs1)).
      eexists; reflexivity.
  - intros conditions Hparsed Hmin Hmax Hexclude. unfold getListenFilter.
    rewrite Hparsed. cbn [obind]. rewrite Hmin, Hmax.
    destruct Hexclude as [Hs | [conditions' Hok]].
    + rewrite (if_given_Throw _ path _ _ _ Hs Hpath (Hload OpNe conditions)).
      reflexivity.
    + rewrite Hok. cbn [obind]. destruct Hsource as [Hs | Hs].
      * rewrite (if_given_Throw _ path _ _ _ Hs Hpath (Hload OpNe conditions))
          in Hok. discriminate.
      * rewrite (if_given_Throw _ path _ _ _ Hs Hpath (Hload OpEq conditions')).
        reflexivity.
Qed.

(** ** Edits *)

Lemma obj_get_own_set_own_same (k : string) (v : js_value) (o : js_object) :
  obj_get_own k (obj_set_own k v o) = Some v.
Proof.
  induction o as [| [k' v'] o IH]; cbn [obj_set_own obj_get_own].
  - rewrite String.eqb_refl. reflexivity.
  - destruct (String.eqb k' k) eqn:E; cbn [obj_get_own].
    + rewrite String.eqb_refl. reflexivity.
    + rewrite E. exact IH.
Qed.

Lemma obj_get_own_set_own_other (k k' : string) (v : js_value) (o : js_object) :
  k' <> k -> obj_get_own k' (obj_set_own k v o) = obj_get_own k' o.
Proof.
  intros Hk. apply String.eqb_neq in Hk.
  induction o as [| [k0 v0] o IH]; cbn [obj_set_own obj_get_own].
  - rewrite String.eqb_sym, Hk. reflexivity.
  - destruct (String.eqb k0 k) eqn:E; cbn [obj_get_own].
    + apply String.eqb_eq in E. subst k0.
      rewrite String.eqb_sym, Hk. reflexivity.
    + rewrite IH. reflexivity.
Qed.

(** [o[k] = v] leaves the own properties under the other keys as they
    are. *)
Lemma obj_set_frame (k k' : string) (v : js_value) (o : js_object) :
  k' <> k -> obj_get_own k' (obj_set k v o) = obj_get_own k' o.
Proof.
  intros Hk. unfold obj_set.
  destruct (String.eqb k "__proto__"); [destruct (obj_get_own k o) |];
    try reflexivity; apply obj_get_own_set_own_other; exact Hk.
Qed.

Lemma obj_set_written (k : string) (v : js_value) (o : js_object) :
  k <> "__proto__" -> obj_get_own k (obj_set k v o) = Some v.
Proof.
  intros Hk. apply String.eqb_neq in Hk. unfold obj_set. rewrite Hk.
  apply obj_get_own_set_own_same.
Qed.



(** ** Regular expressions and the grammar of a clause *)

Lemma star_match_greedy {R : Type} (p : ascii -> bool) (k : string -> option R) (s : string) :
  (forall c s', p c = true -> k (String c s') = None) ->
  star_match p s k = k (drop_while p s).
Proof.
  intros Hk. induction s as [| c s IH]; [reflexivity |].
  cbn [star_match drop_while]. destruct (p c) eqn:Hp; [| reflexivity].
  rewrite IH. destruct (k (drop_while p s)) eqn:E; [reflexivity |].
  apply Hk; exact Hp.
Qed.

Lemma star_match_total {R : Type} (p : ascii -> bool) (k : string -> R) (s : string) :
  star_match p s (fun s' => Some (k s')) = Some (k (drop_while p s)).
Proof.
  induction s as [| c s IH]; [reflexivity |].
  cbn [star_match drop_while]. destruct (p c); [| reflexivity].
  rewrite IH. reflexivity.
Qed.

Lemma length_drop_while (p : ascii -> bool) (s : string) :
  (length (drop_while p s) <= length s)%nat.
Proof.
  induction s as [| c s IH]; [apply le_n |].
  cbn [drop_while]. destruct (p c); cbn [length]; lia.
Qed.

Lemma take_drop_while (p : ascii -> bool) (s : string) :
  take (length s - length (drop_while p s)) s = take_while p s.
Proof.
  induction s as [| c s IH]; [reflexivity |].
  cbn [drop_while take_while]. destruct (p c).
  - pose proof (length_drop_while p s) as Hle. cbn [length].
    replace (S (length s) - length (drop_while p s))%nat
      with (S (length s - length (drop_while p s))) by lia.
    cbn [take]. rewrite IH. reflexivity.
  - rewrite Nat.sub_diag. reflexivity.
Qed.

Lemma strip_prefix_drop (t s : string) :
  strip_prefix t s = if starts_with t s then Some (drop (length t) s) else None.
Proof.
  unfold starts_with. revert s. induction t as [| a t IH]; intros s.
  - destruct s; reflexivity.
  - destruct s as [| b s]; [reflexivity |]. cbn [strip_prefix length drop].
    destruct (Ascii.eqb a b); [apply IH | reflexivity].
Qed.

Lemma take_token (t s : string) :
  starts_with t s = true ->
  take (length s - length (drop (length t) s)) s = t.
Proof.
  unfold starts_with. revert s. induction t as [| a t IH]; intros s H.
  - cbn [length]. replace (drop 0 s) with s by (destruct s; reflexivity).
    rewrite Nat.sub_diag. destruct s; reflexivity.
  - destruct s as [| b s]; [discriminate |]. cbn [strip_prefix] in H.
    destruct (Ascii.eqb_spec a b) as [-> |]; [| discriminate].
    cbn [length drop]. specialize (IH s H).
    assert (Hle : (length (drop (length t) s) <= length s)%nat).
    { clear. revert s. induction (length t) as [| n IHn]; intros s.
      - destruct s; apply le_n.
      - destruct s; cbn [drop length]; [apply le_n |]. specialize (IHn s). lia. }
    replace (S (length s) - length (drop (length t) s))%nat
      with (S (length s - length (drop (length t) s))) by lia.
    cbn [take]. rewrite IH. reflexivity.
Qed.

(** A token does not start with a word character. *)
Lemma no_operator_at_word (c : ascii) (s : string) (op : Operator) :
  word_char c = true -> starts_with (operator_token op) (String c s) = false.
Proof.
  intros Hc. unfold starts_with.
  destruct op; cbn [operator_token strip_prefix];
    match goal with
    | |- context [Ascii.eqb ?a c] =>
        destruct (Ascii.eqb_spec a c) as [<- |]; [discriminate Hc | reflexivity]
    end.
Qed.

Lemma lt_excludes_ge (s : string) :
  starts_with "<" s = true -> starts_with ">=" s = false.
Proof.
  unfold starts_with. destruct s as [| c s]; [discriminate |].
  cbn [strip_prefix]. destruct (Ascii.eqb_spec "<" c) as [<- |]; [reflexivity | discriminate].
Qed.

Lemma first_operator_longest (s : string) : first_operator s = longest_operator s.
Proof.
  unfold first_operator, longest_operator, operators.
  cbn [find fold_left operator_token length Nat.ltb Nat.leb].
  pose proof (lt_excludes_ge s) as Hlt.
  destruct (starts_with "==" s), (starts_with "!=" s), (starts_with "<=" s),
    (starts_with "<" s), (starts_with ">=" s), (starts_with ">" s),
    (starts_with "^" s); try reflexivity; discriminate (Hlt eq_refl).
Qed.

Lemma run_operatorPattern (s : string) (g : captures)
  (h : captures -> string -> captures) :
  run operatorPattern s g (fun g' s' => Some (h g' s'))
  = match first_operator s with
    | Some op => Some (h g (drop (length (operator_token op)) s))
    | None => None
    end.
Proof.
  unfold operatorPattern, first_operator, operators.
  cbn [run find operator_token]. rewrite !strip_prefix_drop.
  repeat match goal with
         | |- context [starts_with ?t s] => destruct (starts_with t s); try reflexivity
         end.
Qed.

Lemma star_match_ext {R : Type} (p : ascii -> bool) (s : string)
  (k1 k2 : string -> option R) :
  (forall s', k1 s' = k2 s') -> star_match p s k1 = star_match p s k2.
Proof.
  intros H. induction s as [| c s IH]; cbn [star_match]; [apply H |].
  rewrite IH, H. reflexivity.
Qed.

Lemma run_ext (r : regex) :
  forall (s : string) (g : captures)
    (k1 k2 : captures -> string -> option captures),
    (forall g' s', k1 g' s' = k2 g' s') -> run r s g k1 = run r s g k2.
Proof.
  induction r as [p | t | r1 IH1 r2 IH2 | r1 IH1 r2 IH2 | p | name r IH];
    intros s g k1 k2 H; cbn [run].
  - destruct s as [| c s]; [reflexivity |]. rewrite H. reflexivity.
  - destruct (strip_prefix t s); [apply H | reflexivity].
  - apply IH1. intros g' s'. apply IH2. exact H.
  - rewrite (IH1 s g k1 k2 H), (IH2 s g k1 k2 H). reflexivity.
  - apply star_match_ext. intros s'. apply H.
  - apply IH. intros g' s'. apply H.
Qed.

Lemma first_operator_Some (s : string) (op : Operator) :
  first_operator s = Some op -> starts_with (operator_token op) s = true.
Proof. intros H. apply find_some in H. apply H. Qed.

Lemma run_tail (s : string) (g : captures) :
  run (Seq (Group "operator" operatorPattern) (Group "value" (Star dot))) s g
    (fun g' _ => Some g')
  = match first_operator s with
    | Some op => Some (tail_captures g s op)
    | None => None
    end.
Proof.
  cbn [run].
  rewrite (run_ext operatorPattern s g _
             (fun g' s' =>
                Some ((g' ++ [("operator", take (length s - length s') s)])
                        ++ [("value", take_while dot s')]))).
  - rewrite run_operatorPattern.
    destruct (first_operator s) as [op |] eqn:Hop; [| reflexivity].
    rewrite (take_token _ _ (first_operator_Some _ _ Hop)). reflexivity.
  - intros g' s'.
    rewrite (star_match_total dot
               (fun s'' =>
                  (g' ++ [("operator", take (length s - length s') s)])
                    ++ [("value", take (length s' - length s'') s')])).
    rewrite take_drop_while. reflexivity.
Qed.

Lemma first_operator_at_word (c : ascii) (s : string) :
  word_char c = true -> first_operator (String c s) = None.
Proof.
  intros Hc. unfold first_operator, operators. cbn [find].
  rewrite !(no_operator_at_word c s _ Hc). reflexivity.
Qed.

Lemma exec_filterPattern (expression : string) :
  exec filterPattern expression
  = let k := take_while word_char expression in
    let rest := drop_while word_char expression in
    if is_empty k then None
    else match first_operator rest with
         | Some op => Some (tail_captures [("key", k)] rest op)
         | None => None
         end.
Proof.
  unfold exec, filterPattern, Plus.
  remember (Seq (Group "operator" operatorPattern) (Group "value" (Star dot)))
    as tail eqn:Htail.
  cbn [run]. subst tail.
  destruct expression as [| c s]; [reflexivity |].
  cbn [take_while drop_while]. destruct (word_char c) eqn:Hc; [| reflexivity].
  cbn [is_empty].
  rewrite star_match_greedy.
  - rewrite run_tail.
    pose proof (take_drop_while word_char (String c s)) as Hk.
    cbn [take_while drop_while] in Hk. rewrite Hc in Hk. rewrite Hk.
    reflexivity.
  - intros c' s' Hc'. rewrite run_tail.
    rewrite (first_operator_at_word c' s' Hc'). reflexivity.
Qed.

Lemma operator_of_token_token (op : Operator) :
  operator_of_token (operator_token op) = Some op.
Proof. destruct op; reflexivity. Qed.

Lemma parseCondition_tokenize (expression : string) :
  parseCondition expression
  = match tokenize expression with
    | Some (k, op, v) => Ok (mkCondition k op (JsString v))
    | None =>
        Throw (ValidationError ("Invalid filter expression " ++ quoted expression))
    end.
Proof.
  unfold parseCondition, tokenize. rewrite exec_filterPattern. cbv zeta.
  rewrite first_operator_longest.
  destruct (is_empty (take_while word_char expression)); [reflexivity |].
  destruct (longest_operator (drop_while word_char expression)) as [op |];
    [| reflexivity].
  unfold tail_captures. cbn [app group String.eqb Ascii.eqb Bool.eqb].
  rewrite operator_of_token_token. reflexivity.
Qed.

Lemma longest_operator_longest (s : string) (op : Operator) :
  longest_operator s = Some op ->
  starts_with (operator_token op) s = true
  /\ forall op', starts_with (operator_token op') s = true ->
                 (length (operator_token op') <= length (operator_token op))%nat.
Proof.
  unfold longest_operator, operators.
  cbn [fold_left operator_token length Nat.ltb Nat.leb].
  destruct (starts_with "==" s) eqn:E1, (starts_with "!=" s) eqn:E2,
    (starts_with "<=" s) eqn:E3, (starts_with "<" s) eqn:E4,
    (starts_with ">=" s) eqn:E5, (starts_with ">" s) eqn:E6,
    (starts_with "^" s) eqn:E7;
    intros H; try discriminate H; injection H as <-;
    (split; [assumption |]);
    intros op'; destruct op'; cbn [operator_token length]; intros H';
    try congruence; lia.
Qed.

Lemma longest_operator_None (s : string) (op : Operator) :
  longest_operator s = None -> starts_with (operator_token op) s = false.
Proof.
  rewrite <- first_operator_longest. unfold first_operator. intros H.
  apply (find_none _ _ H op). unfold operators.
  destruct op; cbn [In]; repeat (first [left; reflexivity | right]).
Qed.

(** C7: [parseCondition] reads a clause as the specification's grammar
    does: the key is the run of word characters at its head, the operator
    is the longest of the seven tokens that stands after the key, the
    operand is the rest of the line; a clause without key or without
    operator is an invalid filter expression. The ordered alternation of
    the pattern picks the longest token: [<=] where [<] would match too,
    [>=] where [>] would. So [duration_ms>=30000] has the key
    [duration_ms], the operator [>=] and the operand [30000], also as the
    second clause of a filter text. *)
Theorem operator_is_longest_token (expression : string) :
  parseCondition expression
  = match tokenize expression with
    | Some (k, op, v) => Ok (mkCondition k op (JsString v))
    | None =>
        Throw (ValidationError ("Invalid filter expression " ++ quoted expression))
    end
  /\ (forall (rest : string) (op : Operator),
        longest_operator rest = Some op <->
        first_operator rest = Some op)
  /\ (forall (rest : string) (op : Operator),
        longest_operator rest = Some op ->
        starts_with (operator_token op) rest = true
        /\ forall op',
             starts_with (operator_token op') rest = true ->
             (length (operator_token op') <= length (operator_token op))%nat)
  /\ (forall (rest : string) (op : Operator),
        longest_operator rest = None ->
        starts_with (operator_token op) rest = false)
  /\ (forall rest : string,
        longest_operator ("<=" ++ rest) = Some OpLe
        /\ longest_operator (">=" ++ rest) = Some OpGe)
  /\ parseCondition "duration_ms>=30000"
     = Ok (mkCondition "duration_ms" OpGe (JsString "30000"))
  /\ parseFilterSpecification (Some "skipped!=1&&duration_ms>=30000")
     = Ok [mkCondition "skipped" OpNe (JsString "1");
           mkCondition "duration_ms" OpGe (JsString "30000")].
Proof.
  split; [apply parseCondition_tokenize |].
  split; [intros rest op; rewrite first_operator_longest; reflexivity |].
  split; [apply longest_operator_longest |].
  split; [intros rest op; apply longest_operator_None |].
  split; [intros rest; split; reflexivity |].
  split; reflexivity.
Qed.


(** * Further properties *)

Lemma map_outcome_Ok {A B : Type} (f : A -> outcome B) (l : list A) (ys : list B) :
  map_outcome f l = Ok ys <-> Forall2 (fun x y => f x = Ok y) l ys.
Proof.
  revert ys. induction l as [| x l IH]; intros ys; cbn [map_outcome].
  - split; [intros H; injection H as <-; constructor | intros H; inversion H; reflexivity].
  - destruct (f x) as [y |] eqn:Hx; cbn [obind].
    + destruct (map_outcome f l) as [ys' |] eqn:Hl; cbn [obind].
      * split.
        -- intros H; injection H as <-. constructor; [exact Hx | apply IH; reflexivity].
        -- intros H. inversion H as [| ? y0 ? ys0 Hy Hrest]; subst.
           rewrite Hx in Hy. injection Hy as <-.
           apply IH in Hrest. injection Hrest as <-. reflexivity.
      * split; [discriminate |].
        intros H. inversion H as [| ? y0 ? ys0 Hy Hrest]; subst.
        apply IH in Hrest. discriminate.
    + split; [discriminate |].
      intros H. inversion H as [| ? y0 ? ys0 Hy Hrest]; subst. congruence.
Qed.

Lemma map_outcome_Throw {A B : Type} (f : A -> outcome B) (l : list A) (e : error) :
  map_outcome f l = Throw e <->
  exists l1 x l2 ys,
    l = l1 ++ x :: l2 /\ Forall2 (fun x y => f x = Ok y) l1 ys /\ f x = Throw e.
Proof.
  induction l as [| x l IH]; cbn [map_outcome].
  - split; [discriminate |].
    intros (l1 & x & l2 & ys & H & _). destruct l1; discriminate.
  - split.
    + destruct (f x) as [y |] eqn:Hx; cbn [obind].
      * destruct (map_outcome f l) as [ys' |]; cbn [obind]; [discriminate |].
        intros H; injection H as <-.
        destruct (proj1 IH eq_refl) as (l1 & x' & l2 & ys & -> & Hall & Hthrow).
        exists (x :: l1), x', l2, (y :: ys).
        repeat split; [constructor; assumption | exact Hthrow].
      * intros H; injection H as <-. exists [], x, l, [].
        repeat split; [constructor | exact Hx].
    + intros (l1 & x' & l2 & ys & H & Hall & Hthrow).
      destruct l1 as [| x1 l1]; cbn in H; injection H as <- ->.
      * rewrite Hthrow. reflexivity.
      * inversion Hall as [| ? y ? ys' Hy Hrest]; subst.
        rewrite Hy. cbn [obind].
        assert (Hl : map_outcome f (l1 ++ x' :: l2) = Throw e).
        { apply IH. exists l1, x', l2, ys'. auto. }
        rewrite Hl. reflexivity.
Qed.

Lemma parseCondition_Ok (expression : string) (c : condition) :
  parseCondition expression = Ok c <->
  option_map condition_of (tokenize expression) = Some c.
Proof.
  rewrite parseCondition_tokenize.
  destruct (tokenize expression) as [[[k op] v] |]; cbn [option_map condition_of];
    split; intros H; try discriminate; injection H as <-; reflexivity.
Qed.

Lemma parseCondition_Throw (expression : string) (e : error) :
  parseCondition expression = Throw e <->
  tokenize expression = None
  /\ e = ValidationError ("Invalid filter expression " ++ quoted expression).
Proof.
  rewrite parseCondition_tokenize.
  destruct (tokenize expression) as [[[k op] v] |]; split.
  - discriminate.
  - intros [H _]; discriminate.
  - intros H; injection H as <-. split; reflexivity.
  - intros [_ ->]. reflexivity.
Qed.

Lemma split_from_not_nil (sep : string) (s : string) :
  forall (skip : nat) (piece : string), split_from sep skip s piece <> [].
Proof.
  induction s as [| c s IH]; intros skip piece; cbn [split_from]; [discriminate |].
  destruct skip; [| apply IH].
  destruct (starts_with sep (String c s)); [discriminate | apply IH].
Qed.

Lemma Forall2_Ok_tokenize (l : list string) (cs : list condition) :
  Forall2 (fun e c => parseCondition e = Ok c) l cs <->
  Forall2 (fun e c => option_map condition_of (tokenize e) = Some c) l cs.
Proof.
  split; intros H; induction H; constructor; try assumption;
    apply parseCondition_Ok; assumption.
Qed.

(** X1: the filter text is cut at every [&&] and parsed clause by clause:
    it yields the conditions of its clauses, in order, exactly when every
    clause is a key, an operator and an operand; otherwise the error names
    the first clause that is none, in quotes. A filter text never yields an
    empty list of conditions, since even the empty text is one clause. *)
Theorem filter_text_parses_clause_by_clause (spec : string) :
  (forall cs : list condition,
      parseFilterSpecification (Some spec) = Ok cs <->
      Forall2 (fun clause c => option_map condition_of (tokenize clause) = Some c)
        (split "&&" spec) cs)
  /\ (forall e : error,
        parseFilterSpecification (Some spec) = Throw e <->
        exists l1 clause l2,
          split "&&" spec = l1 ++ clause :: l2
          /\ (forall x, In x l1 -> tokenize x <> None)
          /\ tokenize clause = None
          /\ e = ValidationError
                   ("Invalid filter expression " ++ quoted clause))
  /\ parseFilterSpecification (Some spec) <> Ok [].
Proof.
  cbn [parseFilterSpecification]. split; [| split].
  - intros cs. rewrite map_outcome_Ok. apply Forall2_Ok_tokenize.
  - intros e. rewrite map_outcome_Throw. split.
    + intros (l1 & x & l2 & ys & Hs & Hall & Hx).
      apply parseCondition_Throw in Hx. destruct Hx as [Hx ->].
      exists l1, x, l2. repeat split; try assumption.
      intros y Hy Hnone. clear Hs.
      induction Hall as [| a b l1' ys' Hab Hall IH]; [destruct Hy |].
      destruct Hy as [-> | Hy]; [| apply IH; exact Hy].
      apply parseCondition_Ok in Hab. rewrite Hnone in Hab. discriminate.
    + intros (l1 & x & l2 & Hs & Hall & Hx & ->).
      assert (Hys : exists ys, Forall2 (fun x y => parseCondition x = Ok y) l1 ys).
      { clear Hs. induction l1 as [| a l1 IH]; [exists []; constructor |].
        destruct IH as [ys Hys]; [intros y Hy; apply Hall; right; exact Hy |].
        destruct (tokenize a) as [t |] eqn:Ha;
          [| exfalso; apply (Hall a); [left; reflexivity | exact Ha]].
        exists (condition_of t :: ys). constructor; [| exact Hys].
        apply parseCondition_Ok. rewrite Ha. reflexivity. }
      destruct Hys as [ys Hys]. exists l1, x, l2, ys.
      repeat split; try assumption. apply parseCondition_Throw. auto.
  - intros H. apply map_outcome_Ok in H. inversion H as [Hnil |].
    unfold split in Hnil. symmetry in Hnil.
    apply (split_from_not_nil _ _ _ _ Hnil).
Qed.

(** ** Printing and reading a clause *)

Lemma take_drop_while_app (p : ascii -> bool) (k rest : string) :
  all_chars p k = true -> take_while p rest = "" ->
  take_while p (k ++ rest)%string = k /\ drop_while p (k ++ rest)%string = rest.
Proof.
  intros Hk Hrest. induction k as [| c k IH]; cbn [append].
  - split; [exact Hrest |].
    destruct rest as [| c r]; [reflexivity |]. cbn [take_while drop_while] in *.
    destruct (p c); [discriminate | reflexivity].
  - cbn [all_chars] in Hk. apply andb_prop in Hk. destruct Hk as [Hc Hk].
    cbn [take_while drop_while]. rewrite Hc. destruct (IH Hk) as [-> ->]. auto.
Qed.

Lemma take_while_all (p : ascii -> bool) (s : string) :
  all_chars p s = true -> take_while p s = s.
Proof.
  induction s as [| c s IH]; [reflexivity |]. cbn [all_chars take_while].
  intros H. apply andb_prop in H. destruct H as [-> H]. rewrite (IH H). reflexivity.
Qed.

Lemma all_chars_take_while (p : ascii -> bool) (s : string) :
  all_chars p (take_while p s) = true.
Proof.
  induction s as [| c s IH]; [reflexivity |]. cbn [take_while].
  destruct (p c) eqn:Hc; [| reflexivity]. cbn [all_chars]. rewrite Hc. exact IH.
Qed.

Lemma take_drop_while_eq (p : ascii -> bool) (s : string) :
  s = (take_while p s ++ drop_while p s)%string.
Proof.
  induction s as [| c s IH]; [reflexivity |]. cbn [take_while drop_while].
  destruct (p c); [| reflexivity]. cbn [append]. rewrite <- IH. reflexivity.
Qed.

Lemma drop_while_head (p : ascii -> bool) (s : string) :
  drop_while p s = ""
  \/ exists c r, drop_while p s = String c r /\ p c = false.
Proof.
  induction s as [| c s IH]; [left; reflexivity |]. cbn [drop_while].
  destruct (p c) eqn:Hc; [exact IH |]. right. exists c, s. auto.
Qed.

Lemma starts_with_drop (t s : string) :
  starts_with t s = true -> s = (t ++ drop (length t) s)%string.
Proof.
  unfold starts_with. revert s. induction t as [| a t IH]; intros s H.
  - destruct s; reflexivity.
  - destruct s as [| b s]; [discriminate |]. cbn [strip_prefix] in H.
    destruct (Ascii.eqb_spec a b) as [-> |]; [| discriminate].
    cbn [length drop append]. rewrite <- (IH s H). reflexivity.
Qed.

Lemma token_not_word (op : Operator) (v : string) :
  take_while word_char (operator_token op ++ v) = "".
Proof. destruct op; reflexivity. Qed.

Lemma drop_token (op : Operator) (v : string) :
  drop (length (operator_token op)) (operator_token op ++ v) = v.
Proof. destruct op; reflexivity. Qed.

Lemma longest_operator_printed (op : Operator) (v : string) :
  (op = OpLt \/ op = OpGt -> starts_with "=" v = false) ->
  longest_operator (operator_token op ++ v) = Some op.
Proof.
  intros H. rewrite <- first_operator_longest.
  destruct op; try reflexivity.
  - change (first_operator (operator_token OpLt ++ v))
      with (if starts_with "=" v then Some OpLe else Some OpLt).
    rewrite H by auto. reflexivity.
  - change (first_operator (operator_token OpGt ++ v))
      with (if starts_with "=" v then Some OpGe else Some OpGt).
    rewrite H by auto. reflexivity.
Qed.

(** X2: a key of word characters, the token of an operator and an operand
    without line terminator, written one after the other, are parsed back to
    that key, that operator and that operand; an operand after [<] or [>]
    must not start with [=], which would read as [<=] or [>=]. *)
Theorem clause_round_trip (k v : string) (op : Operator)
  (Hkey : all_chars word_char k = true)
  (Hnonempty : is_empty k = false)
  (Hvalue : all_chars dot v = true)
  (Hlongest : op = OpLt \/ op = OpGt -> starts_with "=" v = false) :
  parseCondition (k ++ operator_token op ++ v)
  = Ok (mkCondition k op (JsString v)).
Proof.
  apply parseCondition_Ok. unfold tokenize.
  destruct (take_drop_while_app word_char k (operator_token op ++ v) Hkey
              (token_not_word op v)) as [-> ->].
  rewrite Hnonempty, (longest_operator_printed op v Hlongest), drop_token.
  rewrite (take_while_all dot v Hvalue). reflexivity.
Qed.

Lemma parseCondition_decompose (expression : string) (c : condition)
  (Hparsed : parseCondition expression = Ok c) :
  exists v rest : string,
    value c = JsString v
    /\ expression = (key c ++ operator_token (operator c) ++ v ++ rest)%string
    /\ is_empty (key c) = false
    /\ all_chars word_char (key c) = true
    /\ all_chars dot v = true
    /\ (rest = "" \/ exists c0 r, rest = String c0 r /\ dot c0 = false).
Proof.
  apply parseCondition_Ok in Hparsed. unfold tokenize in Hparsed.
  destruct (is_empty (take_while word_char expression)) eqn:Hk; [discriminate |].
  destruct (longest_operator (drop_while word_char expression)) as [op |] eqn:Hop;
    [| discriminate].
  cbn [option_map condition_of] in Hparsed. injection Hparsed as <-.
  cbn [key operator value].
  set (rest0 := drop (length (operator_token op)) (drop_while word_char expression)).
  exists (take_while dot rest0), (drop_while dot rest0).
  split; [reflexivity |]. split; [| split; [exact Hk | split; [| split]]].
  - rewrite <- (take_drop_while_eq dot rest0). unfold rest0.
    rewrite <- (starts_with_drop (operator_token op));
      [apply take_drop_while_eq |].
    apply (longest_operator_longest _ _ Hop).
  - apply all_chars_take_while.
  - apply all_chars_take_while.
  - apply drop_while_head.
Qed.

(** ** Splitting the filter text *)

Lemma join_cons (sep x : string) (l : list string) :
  l <> [] -> join sep (x :: l) = (x ++ sep ++ join sep l)%string.
Proof. destruct l; [congruence | reflexivity]. Qed.

Lemma append_empty_r (s : string) : (s ++ "")%string = s.
Proof. induction s as [| c s IH]; [reflexivity |]. cbn. rewrite IH. reflexivity. Qed.

Lemma append_assoc (a b c : string) :
  ((a ++ b) ++ c)%string = (a ++ b ++ c)%string.
Proof. induction a as [| x a IH]; [reflexivity |]. cbn. rewrite IH. reflexivity. Qed.

Lemma join_split_from (sep : string) (s : string) :
  sep <> "" ->
  forall (skip : nat) (piece : string),
    join sep (split_from sep skip s piece) = (piece ++ drop skip s)%string.
Proof.
  intros Hsep. induction s as [| c s IH]; intros skip piece; cbn [split_from].
  - destruct skip; cbn [join drop]; rewrite append_empty_r; reflexivity.
  - destruct skip as [| n]; [| rewrite IH; reflexivity].
    destruct (starts_with sep (String c s)) eqn:Hm.
    + rewrite join_cons by apply split_from_not_nil. rewrite IH.
      apply starts_with_drop in Hm.
      destruct sep as [| a t]; [congruence |].
      replace (length (String a t) - 1) with (length t)
        by (cbn [length]; rewrite Nat.sub_1_r; reflexivity).
      cbn [length drop] in Hm. cbn [append].
      transitivity (piece ++ String c s)%string; [| reflexivity].
      f_equal. symmetry. exact Hm.
    + rewrite IH, append_assoc. reflexivity.
Qed.

Lemma starts_with_app (t r : string) : starts_with t (t ++ r) = true.
Proof.
  unfold starts_with. induction t as [| a t IH]; [reflexivity |].
  cbn [append strip_prefix]. rewrite Ascii.eqb_refl. exact IH.
Qed.

Lemma app_snoc_inv (a b p : string) (c : ascii) :
  (p ++ String c "")%string = (a ++ b)%string -> b <> "" ->
  exists b0, b = (b0 ++ String c "")%string /\ p = (a ++ b0)%string.
Proof.
  revert p. induction a as [| x a IH]; intros p H Hb; cbn [append] in H.
  - exists p. auto.
  - destruct p as [| y p]; cbn [append] in H; injection H as <- H.
    + destruct a; [destruct b; [congruence | discriminate] | discriminate].
    + destruct (IH p H Hb) as (b0 & -> & ->). exists b0. auto.
Qed.

Lemma unmatched_no_occurrence (sep piece s : string) :
  sep <> "" -> unmatched sep piece s -> ~ occurs sep piece.
Proof.
  intros Hsep Hun (a & b & ->).
  specialize (Hun a (sep ++ b)%string eq_refl).
  rewrite append_assoc, starts_with_app in Hun.
  assert (H : (sep ++ b)%string <> "") by (destruct sep; [congruence | discriminate]).
  specialize (Hun H). discriminate.
Qed.

Lemma unmatched_empty (sep s : string) : unmatched sep "" s.
Proof.
  intros a b H Hb. destruct a; [cbn in H; congruence | discriminate].
Qed.

Lemma split_from_pieces (sep : string) (s : string) :
  sep <> "" ->
  forall (skip : nat) (piece : string),
    (skip = 0 -> unmatched sep piece s) -> (skip <> 0 -> piece = "") ->
    forall x, In x (split_from sep skip s piece) -> ~ occurs sep x.
Proof.
  intros Hsep. induction s as [| c s IH]; intros skip piece H0 Hn x Hx;
    cbn [split_from] in Hx.
  - destruct Hx as [<- | []]. destruct skip as [| n].
    + apply (unmatched_no_occurrence sep piece "" Hsep (H0 eq_refl)).
    + rewrite (Hn ltac:(discriminate)). intros (a & b & H).
      destruct a; cbn in H; [destruct sep; [congruence | discriminate] | discriminate].
  - destruct skip as [| n].
    + specialize (H0 eq_refl). destruct (starts_with sep (String c s)) eqn:Hm.
      * destruct Hx as [<- | Hx].
        -- apply (unmatched_no_occurrence sep piece _ Hsep H0).
        -- apply (IH (length sep - 1) "" (fun _ => unmatched_empty sep s)
                    (fun _ => eq_refl) x Hx).
      * apply (IH 0 (piece ++ String c "")%string); [| congruence | exact Hx].
        intros _ a b Hab Hb.
        destruct (app_snoc_inv a b piece c Hab Hb) as (b0 & -> & ->).
        rewrite append_assoc. cbn [append].
        destruct b0 as [| y b0]; [exact Hm |].
        apply (H0 a (String y b0) eq_refl). discriminate.
    + rewrite (Hn ltac:(discriminate)) in Hx.
      apply (IH n "" (fun _ => unmatched_empty sep s) (fun _ => eq_refl) x Hx).
Qed.

Lemma Forall2_In_r {A B : Type} (R : A -> B -> Prop) (l : list A) (l' : list B) (y : B) :
  Forall2 R l l' -> In y l' -> exists x, In x l /\ R x y.
Proof.
  intros H. induction H as [| a b l l' Hab H IH]; intros Hy; [destruct Hy |].
  destruct Hy as [<- | Hy]; [exists a; split; [left; reflexivity | exact Hab] |].
  destruct (IH Hy) as (x & Hx & HR). exists x. split; [right; exact Hx | exact HR].
Qed.

(** X3: joining the clauses of a filter text with [&&] gives the text
    back. Every condition parsed from it was read from a clause that holds
    no [&&]: the clause is the key, the token of the operator, the operand,
    and what follows the first line terminator, which is dropped; so no
    operand of a parsed condition contains [&&]. *)
Theorem conditions_hold_no_separator (spec : string) (cs : list condition)
  (c : condition)
  (Hparsed : parseFilterSpecification (Some spec) = Ok cs)
  (Hin : In c cs) :
  join "&&" (split "&&" spec) = spec
  /\ exists clause v rest : string,
       In clause (split "&&" spec)
       /\ value c = JsString v
       /\ clause = (key c ++ operator_token (operator c) ++ v ++ rest)%string
       /\ is_empty (key c) = false
       /\ all_chars word_char (key c) = true
       /\ all_chars dot v = true
       /\ (rest = "" \/ exists c0 r, rest = String c0 r /\ dot c0 = false)
       /\ ~ occurs "&&" clause
       /\ ~ occurs "&&" v.
Proof.
  split.
  { unfold split. rewrite join_split_from by discriminate. reflexivity. }
  cbn [parseFilterSpecification] in Hparsed. apply map_outcome_Ok in Hparsed.
  destruct (Forall2_In_r _ _ _ _ Hparsed Hin) as (clause & Hclause & Hc).
  destruct (parseCondition_decompose clause c Hc)
    as (v & rest & Hv & He & Hk0 & Hk & Hdot & Hrest).
  assert (Hno : ~ occurs "&&" clause).
  { apply (split_from_pieces "&&" spec ltac:(discriminate) 0 ""
             (fun _ => unmatched_empty "&&" spec) ltac:(congruence)).
    exact Hclause. }
  exists clause, v, rest. repeat split; try assumption.
  intros (x & y & Hxy). apply Hno. rewrite He, Hxy.
  exists (key c ++ operator_token (operator c) ++ x)%string, (y ++ rest)%string.
  rewrite !append_assoc. reflexivity.
Qed.

Lemma if_given_given {A : Type} (o : option string) (f : string -> A) (d : A) :
  if_given o f d = match given o with Some s => f s | None => d end.
Proof.
  unfold if_given, given. destruct o as [s |]; [| reflexivity].
  destruct (is_empty s); reflexivity.
Qed.

(** X4: an error of the filter text comes before the dates are looked at;
    after that a given [after] that is no date aborts with
    [Invalid date "..."] of that text, and then a given [before] that is no
    date does. *)
Theorem invalid_date_aborts (filterSpecification : option string) (opts : options) :
  (forall e, parseFilterSpecification filterSpecification = Throw e ->
             getListenFilter filterSpecification opts = Throw e)
  /\ (forall conditions a,
        parseFilterSpecification filterSpecification = Ok conditions ->
        given (after opts) = Some a -> isNaN (timestamp a) = true ->
        getListenFilter filterSpecification opts
        = Throw (ValidationError ("Invalid date " ++ quoted a)))
  /\ (forall conditions b,
        parseFilterSpecification filterSpecification = Ok conditions ->
        isNaN (if_given (after opts) timestamp zero) = false ->
        given (before opts) = Some b -> isNaN (timestamp b) = true ->
        getListenFilter filterSpecification opts
        = Throw (ValidationError ("Invalid date " ++ quoted b))).
Proof.
  unfold getListenFilter. split; [| split].
  - intros e ->. reflexivity.
  - intros cs a -> Ha Hnan. cbn [obind]. rewrite if_given_given, Ha, Hnan.
    unfold given in Ha. destruct (after opts) as [s |]; [| discriminate].
    destruct (is_empty s); [discriminate |]. injection Ha as ->. reflexivity.
  - intros cs b -> Hmin Hb Hnan. cbn [obind]. rewrite Hmin.
    rewrite (if_given_given (before opts)), Hb, Hnan.
    unfold given in Hb. destruct (before opts) as [s |]; [| discriminate].
    destruct (is_empty s); [discriminate |]. injection Hb as ->. reflexivity.
Qed.

(** X5: an option given as the empty string is an option that is not
    given: [getListenFilter] does the same with both. *)
Theorem empty_options_are_ignored (filterSpecification : option string)
  (opts : options) :
  getListenFilter filterSpecification opts
  = getListenFilter filterSpecification
      (mkOptions (given (after opts)) (given (before opts))
         (given (excludeList opts)) (given (includeList opts))).
Proof.
  destruct opts as [[[| ? ?] |] [[| ? ?] |] [[| ? ?] |] [[| ? ?] |]];
    reflexivity.
Qed.

(** ** What the built predicate warns about *)

Lemma parseCondition_built (expression : string) (c : condition) :
  parseCondition expression = Ok c -> built c.
Proof.
  intros H. apply parseCondition_Ok in H.
  destruct (tokenize expression) as [[[k op] v] |]; [| discriminate].
  injection H as <-. exact I.
Qed.

Lemma parseFilterSpecification_built (filterSpecification : option string)
  (cs : list condition) :
  parseFilterSpecification filterSpecification = Ok cs -> Forall built cs.
Proof.
  destruct filterSpecification as [spec |]; cbn [parseFilterSpecification].
  - intros H. apply map_outcome_Ok in H.
    induction H as [| e c l cs' Hc H IH]; constructor;
      [apply (parseCondition_built e c Hc) | exact IH].
  - intros H. injection H as <-. constructor.
Qed.

Lemma pushConditions_Ok (path : string) (op : Operator)
  (entries : list (string * js_value)) :
  forall cs cs' : list condition,
    pushConditions path op entries cs = Ok cs' <->
    forallb (fun kv => isArray (snd kv)) entries = true
    /\ cs' = (cs ++ source_conditions op entries)%list.
Proof.
  induction entries as [| [k v] entries IH]; intros cs cs';
    cbn [pushConditions forallb source_conditions map snd fst].
  - rewrite app_nil_r. split; [intros H; injection H as <-; auto |].
    intros [_ ->]. reflexivity.
  - destruct (isArray v); cbn [andb].
    + rewrite IH. unfold source_conditions. rewrite <- app_assoc. reflexivity.
    + split; [discriminate | intros [H _]; discriminate].
Qed.

Lemma source_conditions_built (op : Operator) (entries : list (string * js_value)) :
  op = OpEq \/ op = OpNe ->
  forallb (fun kv => isArray (snd kv)) entries = true ->
  Forall built (source_conditions op entries).
Proof.
  intros Hop. induction entries as [| [k v] entries IH]; cbn [forallb source_conditions map snd fst];
    intros H; constructor.
  - apply andb_prop in H. destruct H as [Hv _].
    unfold built. cbn [value operator]. destruct v; try discriminate. exact Hop.
  - apply andb_prop in H. apply IH, H.
Qed.

Lemma loadConditionsFromYaml_built (path : string) (op : Operator)
  (cs cs' : list condition) :
  op = OpEq \/ op = OpNe -> Forall built cs ->
  loadConditionsFromYaml path op cs = Ok cs' -> Forall built cs'.
Proof.
  intros Hop Hcs. unfold loadConditionsFromYaml.
  destruct (readTextFile path) as [content |]; [| discriminate]. cbn [obind].
  destruct (parseYaml content) as [source |]; [| discriminate]. cbn [obind].
  destruct (Object_entries source) as [entries |]; [| discriminate]. cbn [obind].
  intros H. apply pushConditions_Ok in H. destruct H as [Harr ->].
  apply Forall_app. split; [exact Hcs | apply source_conditions_built; assumption].
Qed.

Lemma getListenFilter_built (filterSpecification : option string)
  (opts : options) (f : Listen -> M bool) :
  getListenFilter filterSpecification opts = Ok f ->
  exists conditions : list condition,
    f = listenFilter (if_given (after opts) timestamp zero)
          (if_given (before opts) timestamp Infinity) conditions
    /\ Forall built conditions.
Proof.
  unfold getListenFilter.
  destruct (parseFilterSpecification filterSpecification) as [cs |] eqn:Hcs;
    [| discriminate].
  apply parseFilterSpecification_built in Hcs. cbn [obind].
  destruct (isNaN (if_given (after opts) timestamp zero)); [discriminate |].
  destruct (isNaN (if_given (before opts) timestamp Infinity)); [discriminate |].
  rewrite (if_given_given (excludeList opts)).
  assert (H1 : forall cs1,
             match given (excludeList opts) with
             | Some s => loadConditionsFromYaml s OpNe cs
             | None => Ok cs
             end = Ok cs1 -> Forall built cs1).
  { intros cs1. destruct (given (excludeList opts)).
    - apply loadConditionsFromYaml_built; auto.
    - intros H; injection H as <-; exact Hcs. }
  destruct (match given (excludeList opts) with Some _ => _ | None => _ end)
    as [cs1 |]; [| discriminate].
  specialize (H1 cs1 eq_refl). cbn [obind].
  rewrite (if_given_given (includeList opts)).
  assert (H2 : forall cs2,
             match given (includeList opts) with
             | Some s => loadConditionsFromYaml s OpEq cs1
             | None => Ok cs1
             end = Ok cs2 -> Forall built cs2).
  { intros cs2. destruct (given (includeList opts)).
    - apply loadConditionsFromYaml_built; auto.
    - intros H; injection H as <-; exact H1. }
  destruct (match given (includeList opts) with Some _ => _ | None => _ end)
    as [cs2 |]; [| discriminate].
  cbn [obind]. intros H. injection H as <-. exists cs2. split; [reflexivity | auto].
Qed.

Lemma compare_with_silent (test : number -> number -> bool) (a v : js_value) :
  fst (compare_with test a v) = [].
Proof.
  unfold compare_with, lift, bind. destruct (compare a v); reflexivity.
Qed.

Lemma fst_bind {A B : Type} (m : M A) (f : A -> M B) (line : string) :
  In line (fst (bind m f)) ->
  In line (fst m) \/ exists a, In line (fst (f a)).
Proof.
  unfold bind. destruct m as [w [a | e]]; cbn [fst].
  - destruct (f a) as [w' r] eqn:Hf. cbn [fst]. intros H.
    apply in_app_or in H. destruct H as [H | H]; [left; exact H |].
    right. exists a. rewrite Hf. exact H.
  - auto.
Qed.

Lemma some_silent {A : Type} (f : A -> M js_value) (l : list A) :
  (forall x, fst (f x) = []) -> fst (some f l) = [].
Proof.
  intros Hf. induction l as [| x l IH]; [reflexivity |]. cbn [some].
  specialize (Hf x). unfold bind. destruct (f x) as [w [v | e]]; cbn [fst] in Hf; subst w.
  - destruct (ToBoolean v); [reflexivity |].
    destruct (some f l) as [w' r]. cbn [fst] in *. subst w'. reflexivity.
  - reflexivity.
Qed.

Lemma every_silent {A : Type} (f : A -> M js_value) (l : list A) :
  (forall x, fst (f x) = []) -> fst (every f l) = [].
Proof.
  intros Hf. induction l as [| x l IH]; [reflexivity |]. cbn [every].
  specialize (Hf x). unfold bind. destruct (f x) as [w [v | e]]; cbn [fst] in Hf; subst w.
  - destruct (ToBoolean v); [| reflexivity].
    destruct (every f l) as [w' r]. cbn [fst] in *. subst w'. reflexivity.
  - reflexivity.
Qed.

Lemma evaluate_built_warning (c : condition) (a : js_value) (line : string) :
  built c -> In line (fst (evaluate c a)) ->
  isArray a = true /\ line = multiple_values_warning (key c).
Proof.
  intros Hb. unfold evaluate. destruct (isArray a) eqn:Ha.
  - cbn. intros [<- | []]. auto.
  - unfold built in Hb. destruct (value c) as [| | | | s | items | |];
      try contradiction.
    + destruct (operator c); try (rewrite compare_with_silent; intros []).
      cbn. intros [].
    + destruct Hb as [-> | ->]; intros H; exfalso.
      * apply fst_bind in H. destruct H as [H | [b H]]; [| destruct H].
        rewrite some_silent in H by (intros; apply compare_with_silent).
        destruct H.
      * apply fst_bind in H. destruct H as [H | [b H]]; [| destruct H].
        rewrite every_silent in H by (intros; apply compare_with_silent).
        destruct H.
Qed.

Lemma every_warning {A : Type} (f : A -> M js_value) (l : list A) (line : string) :
  In line (fst (every f l)) -> exists x, In x l /\ In line (fst (f x)).
Proof.
  induction l as [| x l IH]; cbn [every]; [intros [] |].
  intros H. apply fst_bind in H. destruct H as [H | [v H]].
  - exists x. split; [left; reflexivity | exact H].
  - destruct (ToBoolean v); [| destruct H].
    destruct (IH H) as (y & Hy & Hl). exists y. split; [right; exact Hy | exact Hl].
Qed.

(** X6: every line a predicate built by [getListenFilter] warns with is
    the one for an attribute that holds a list. The conditions it builds
    have a string operand, or a list operand with [==] or [!=], so the
    warning for an operator that does not accept multiple values is never
    written. *)
Theorem built_predicate_warns_of_lists_only (filterSpecification : option string)
  (opts : options) (f : Listen -> M bool) (listen : Listen) (line : string)
  (Hbuilt : getListenFilter filterSpecification opts = Ok f)
  (Hline : In line (fst (f listen))) :
  exists k : string,
    line = multiple_values_warning k
    /\ isArray (actualValue_of (track_metadata listen) k) = true.
Proof.
  destruct (getListenFilter_built _ _ _ Hbuilt) as (cs & -> & Hcs).
  unfold listenFilter in Hline.
  destruct (num_le _ _ || num_ge _ _); [destruct Hline |].
  apply every_warning in Hline. destruct Hline as (c & Hc & Hline).
  rewrite Forall_forall in Hcs.
  destruct (evaluate_built_warning c _ line (Hcs c Hc) Hline) as [Ha ->].
  exists (key c). auto.
Qed.

(** ** List sources *)

Lemma loadConditionsFromYaml_Ok (path : string) (op : Operator)
  (cs cs' : list condition) :
  loadConditionsFromYaml path op cs = Ok cs' <->
  exists content source entries,
    readTextFile path = Ok content
    /\ parseYaml content = Ok source
    /\ Object_entries source = Ok entries
    /\ forallb (fun kv => isArray (snd kv)) entries = true
    /\ cs' = (cs ++ source_conditions op entries)%list.
Proof.
  unfold loadConditionsFromYaml. split.
  - destruct (readTextFile path) as [content |]; [| discriminate]. cbn [obind].
    destruct (parseYaml content) as [source |] eqn:Hsource; [| discriminate].
    cbn [obind].
    destruct (Object_entries source) as [entries |] eqn:Hentries; [| discriminate].
    cbn [obind].
    intros H. apply pushConditions_Ok in H. destruct H as [Harr ->].
    exists content, source, entries. auto 10.
  - intros (content & source & entries & H1 & H2 & H3 & Harr & ->).
    rewrite H1. cbn [obind]. rewrite H2. cbn [obind]. rewrite H3. cbn [obind].
    apply pushConditions_Ok. auto.
Qed.

Lemma if_given_load (o : option string) (op : Operator) (cs cs' : list condition) :
  if_given o (fun path => loadConditionsFromYaml path op cs) (Ok cs) = Ok cs' <->
  exists entries,
    loaded o entries
    /\ forallb (fun kv => isArray (snd kv)) entries = true
    /\ cs' = (cs ++ source_conditions op entries)%list.
Proof.
  rewrite if_given_given. unfold loaded. destruct (given o) as [path |].
  - rewrite loadConditionsFromYaml_Ok. split.
    + intros (content & source & entries & H1 & H2 & H3 & H4 & H5).
      exists entries. split; [exists content, source; auto | auto].
    + intros (entries & (content & source & H1 & H2 & H3) & H4 & H5).
      exists content, source, entries. auto 10.
  - split.
    + intros H. injection H as <-. exists []. cbn. rewrite app_nil_r. auto.
    + intros (entries & -> & _ & ->). cbn. rewrite app_nil_r. reflexivity.
Qed.

(** X7: [getListenFilter] returns a predicate exactly when the filter text
    parses, neither bound is NaN, and the list sources that are given are
    read, parsed, and map every key to a list. The predicate then checks the
    conditions of the text first, then one [!=] condition per entry of the
    exclude list, then one [==] condition per entry of the include list,
    each in the order of its source. *)
Theorem list_sources_append_in_order (filterSpecification : option string)
  (opts : options) (f : Listen -> M bool) :
  getListenFilter filterSpecification opts = Ok f <->
  exists (conditions : list condition) (excluded included : list (string * js_value)),
    parseFilterSpecification filterSpecification = Ok conditions
    /\ isNaN (if_given (after opts) timestamp zero) = false
    /\ isNaN (if_given (before opts) timestamp Infinity) = false
    /\ loaded (excludeList opts) excluded
    /\ forallb (fun kv => isArray (snd kv)) excluded = true
    /\ loaded (includeList opts) included
    /\ forallb (fun kv => isArray (snd kv)) included = true
    /\ f = listenFilter (if_given (after opts) timestamp zero)
             (if_given (before opts) timestamp Infinity)
             (conditions ++ source_conditions OpNe excluded
                ++ source_conditions OpEq included).
Proof.
  unfold getListenFilter. split.
  - destruct (parseFilterSpecification filterSpecification) as [cs |];
      [| discriminate]. cbn [obind].
    destruct (isNaN (if_given (after opts) timestamp zero)); [discriminate |].
    destruct (isNaN (if_given (before opts) timestamp Infinity)); [discriminate |].
    destruct (if_given (excludeList opts) _ _) as [cs1 |] eqn:H1; [| discriminate].
    cbn [obind].
    destruct (if_given (includeList opts) _ _) as [cs2 |] eqn:H2; [| discriminate].
    cbn [obind]. intros H. injection H as <-.
    apply if_given_load in H1. destruct H1 as (ex & Hex & Hexl & ->).
    apply if_given_load in H2. destruct H2 as (inc & Hinc & Hincl & ->).
    exists cs, ex, inc. rewrite <- app_assoc. auto 10.
  - intros (cs & ex & inc & -> & -> & -> & Hex & Hexl & Hinc & Hincl & ->).
    cbn [obind].
    assert (H1 : if_given (excludeList opts)
                   (fun path => loadConditionsFromYaml path OpNe cs) (Ok cs)
                 = Ok (cs ++ source_conditions OpNe ex)%list).
    { apply if_given_load. exists ex. auto. }
    rewrite H1. cbn [obind].
    assert (H2 : if_given (includeList opts)
                   (fun path => loadConditionsFromYaml path OpEq
                                  (cs ++ source_conditions OpNe ex)%list)
                   (Ok (cs ++ source_conditions OpNe ex)%list)
                 = Ok ((cs ++ source_conditions OpNe ex) ++ source_conditions OpEq inc)%list).
    { apply if_given_load. exists inc. auto. }
    rewrite H2. cbn [obind]. rewrite <- app_assoc. reflexivity.
Qed.

(** X8: what a list source is read as depends on the kind of document the
    file holds: [null] or [undefined] (an empty document) aborts with a
    [TypeError]; a boolean, a number, an empty list or an empty string adds
    no condition; a list or a string has its indices for keys, so a
    non-empty string, and a list whose first item is no list, are rejected
    at the key [0]; a mapping is read entry by entry. *)
Theorem list_source_document (path content : string) (op : Operator)
  (source : js_value) (conditions : list condition)
  (Hread : readTextFile path = Ok content)
  (Hparsed : parseYaml content = Ok source) :
  match source with
  | JsUndefined | JsNull =>
      loadConditionsFromYaml path op conditions
      = Throw (TypeError "Cannot convert undefined or null to object")
  | JsBoolean _ | JsNumber _ | JsFunction _ | JsArray [] | JsString "" =>
      loadConditionsFromYaml path op conditions = Ok conditions
  | JsArray (item :: _) =>
      isArray item = false ->
      loadConditionsFromYaml path op conditions
      = Throw (ValidationError
                 (quoted "0" ++ " from " ++ quoted path ++ " has to be a list"))
  | JsString _ =>
      loadConditionsFromYaml path op conditions
      = Throw (ValidationError
                 (quoted "0" ++ " from " ++ quoted path ++ " has to be a list"))
  | JsObject props =>
      loadConditionsFromYaml path op conditions
      = pushConditions path op props conditions
  end.
Proof.
  unfold loadConditionsFromYaml. rewrite Hread. cbn [obind]. rewrite Hparsed.
  cbn [obind].
  destruct source as [| | b | n | [| ch s] | [| item items] | props | name];
    try reflexivity.
  intros Hitem. cbn [Object_entries obind indexed pushConditions].
  rewrite Hitem. reflexivity.
Qed.

(** ** The predicate over list sources *)

Lemma every_app {A : Type} (f : A -> M js_value) (l1 l2 : list A) :
  every f (l1 ++ l2)
  = (b <- every f l1 ;; if b then every f l2 else ret false).
Proof.
  induction l1 as [| x l1 IH]; cbn [every app].
  - rewrite bind_ret_l. reflexivity.
  - rewrite IH. unfold bind. destruct (f x) as [w [v | e]]; [| reflexivity].
    destruct (ToBoolean v).
    + destruct (every f l1) as [w1 [[|] | e1]]; cbn.
      * destruct (every f l2) as [w2 r2]. rewrite app_assoc. reflexivity.
      * rewrite app_assoc. reflexivity.
      * reflexivity.
    + cbn. rewrite !app_nil_r. reflexivity.
Qed.

(** X10: the conditions are a conjunction that is checked from left to
    right and stops at the first condition that fails: the predicate over
    two lists of conditions one after the other checks the first list, and
    the second only when the first passes, so what the second would warn of
    or throw is not seen after a failure. *)
Theorem conditions_are_conjoined (minTs maxTs : number)
  (conditions1 conditions2 : list condition) (listen : Listen) :
  listenFilter minTs maxTs (conditions1 ++ conditions2) listen
  = (b <- listenFilter minTs maxTs conditions1 listen ;;
     if b then listenFilter minTs maxTs conditions2 listen else ret false).
Proof.
  unfold listenFilter.
  destruct (num_le (listened_at listen) minTs || num_ge (listened_at listen) maxTs).
  - reflexivity.
  - apply every_app.
Qed.

Lemma every_source_conditions (op : Operator) (g : string -> js_value -> bool)
  (actual : string -> js_value) (entries : list (string * js_value)) :
  (forall k v, In (k, v) entries ->
               evaluate (mkCondition k op v) (actual k) = ret (JsBoolean (g k v))) ->
  every (fun c => evaluate c (actual (key c))) (source_conditions op entries)
  = ret (forallb (fun kv => g (fst kv) (snd kv)) entries).
Proof.
  intros H. unfold source_conditions.
  induction entries as [| [k v] entries IH]; [reflexivity |].
  cbn [map every forallb fst snd key].
  rewrite (H k v (or_introl eq_refl)), bind_ret_l. cbn [ToBoolean].
  destruct (g k v); [| reflexivity].
  apply IH. intros k' v' Hin. apply H. right; exact Hin.
Qed.

(** X9: a listen inside the time range whose attributes under the keys of
    the list sources are no lists nor objects passes the conditions of an
    exclude list and an include list exactly when, for every key of the
    exclude list, [compare] returns 0 for none of its values, and for every
    key of the include list, [compare] returns 0 for one of its values; no
    warning is written. *)
Theorem list_sources_decide (minTs maxTs : number)
  (excluded included : list (string * js_value)) (listen : Listen)
  (Hafter : num_le (listened_at listen) minTs = false)
  (Hbefore : num_ge (listened_at listen) maxTs = false)
  (Hexcluded : forallb (fun kv => isArray (snd kv)) excluded = true)
  (Hincluded : forallb (fun kv => isArray (snd kv)) included = true)
  (Hscalar : forall k, In k (map fst (excluded ++ included)) ->
                       is_scalar (actualValue_of (track_metadata listen) k) = true) :
  let actual := actualValue_of (track_metadata listen) in
  listenFilter minTs maxTs
    (source_conditions OpNe excluded ++ source_conditions OpEq included) listen
  = ret (forallb (fun kv => forallb (fun v => negb (equal_to (actual (fst kv)) v))
                              (items_of (snd kv))) excluded
         && forallb (fun kv => existsb (equal_to (actual (fst kv)))
                                 (items_of (snd kv))) included).
Proof.
  intros actual. subst actual. unfold listenFilter.
  rewrite Hafter, Hbefore. cbn [orb]. cbv zeta.
  set (actual := actualValue_of (track_metadata listen)) in *.
  rewrite every_app.
  rewrite (every_source_conditions OpNe
             (fun k v => forallb (fun x => negb (equal_to (actual k) x)) (items_of v))
             actual excluded).
  2:{ intros k v Hin.
      assert (Hv : isArray v = true).
      { rewrite forallb_forall in Hexcluded. apply (Hexcluded (k, v) Hin). }
      destruct v; try discriminate. cbn [items_of].
      apply evaluate_list_operand. apply Hscalar.
      rewrite map_app. apply in_or_app. left.
      apply (in_map fst _ _ Hin). }
  rewrite bind_ret_l.
  match goal with
  | |- (if ?b then _ else _) = _ => destruct b; [| reflexivity]
  end.
  cbn [andb].
  apply (every_source_conditions OpEq
           (fun k v => existsb (equal_to (actual k)) (items_of v))).
  intros k v Hin.
  assert (Hv : isArray v = true).
  { rewrite forallb_forall in Hincluded. apply (Hincluded (k, v) Hin). }
  destruct v; try discriminate. cbn [items_of].
  apply evaluate_list_operand. apply Hscalar.
  rewrite map_app. apply in_or_app. right.
  apply (in_map fst _ _ Hin).
Qed.

(** ** Attributes that are no strings *)

(** X11: a condition cannot tell a boolean attribute from the number 1 or
    0, nor a missing or [null] attribute from the empty string, whatever its
    operator and its operand. *)
Theorem attribute_coercions (c : condition) :
  (forall b : bool,
      evaluate c (JsBoolean b) = evaluate c (JsNumber (if b then one else zero)))
  /\ evaluate c JsUndefined = evaluate c (JsString "")
  /\ evaluate c JsNull = evaluate c (JsString "").
Proof.
  unfold evaluate. cbn [isArray].
  split; [intros b | split];
    (destruct (value c); destruct (operator c); try reflexivity;
     try (destruct b; reflexivity)).
Qed.




(** ** Edit expressions *)

Lemma exec_editPattern (expression : string) :
  exec editPattern expression
  = let k := take_while word_char expression in
    let rest := drop_while word_char expression in
    if is_empty k then None
    else match strip_prefix "=" rest with
         | Some v =>
             Some [("key", k); ("operator", "="); ("value", take_while dot v)]
         | None => None
         end.
Proof.
  assert (Htail : forall s g,
             run (Seq (Group "operator" (Lit "=")) (Group "value" (Star dot))) s g
               (fun g' _ => Some g')
             = match strip_prefix "=" s with
               | Some v =>
                   Some ((g ++ [("operator", "=")]) ++ [("value", take_while dot v)])
               | None => None
               end).
  { intros s g. cbn [run]. rewrite strip_prefix_drop.
    destruct (starts_with "=" s) eqn:Hs; [| reflexivity].
    rewrite (take_token _ _ Hs).
    rewrite (star_match_total dot
               (fun s'' =>
                  (g ++ [("operator", "=")])
                    ++ [("value", take (length (drop (length "=") s) - length s'')
                                    (drop (length "=") s))])).
    rewrite take_drop_while. reflexivity. }
  unfold exec, editPattern, Plus.
  remember (Seq (Group "operator" (Lit "=")) (Group "value" (Star dot)))
    as tail eqn:Etail.
  cbn [run]. subst tail.
  destruct expression as [| c s]; [reflexivity |].
  cbn [take_while drop_while]. destruct (word_char c) eqn:Hc; [| reflexivity].
  cbn [is_empty].
  rewrite star_match_greedy.
  - rewrite Htail.
    pose proof (take_drop_while word_char (String c s)) as Hk.
    cbn [take_while drop_while] in Hk. rewrite Hc in Hk. rewrite Hk.
    reflexivity.
  - intros c' s' Hc'. rewrite Htail. cbn [strip_prefix].
    destruct (Ascii.eqb_spec "="%char c') as [<- |]; [discriminate | reflexivity].
Qed.

Lemma parseEdit_Ok (expression : string) (e : edit) :
  parseEdit expression = Ok e <->
  is_empty (take_while word_char expression) = false
  /\ exists v, strip_prefix "=" (drop_while word_char expression) = Some v
               /\ e = mkEdit (take_while word_char expression) (take_while dot v).
Proof.
  unfold parseEdit. rewrite exec_editPattern. cbv zeta.
  destruct (is_empty (take_while word_char expression)).
  - split; [discriminate | intros [H _]; discriminate].
  - destruct (strip_prefix "=" (drop_while word_char expression)) as [v |].
    + cbn [group String.eqb Ascii.eqb Bool.eqb]. split.
      * intros H. injection H as <-. split; [reflexivity |]. exists v. auto.
      * intros [_ (v' & Hv & ->)]. injection Hv as <-. reflexivity.
    + split; [discriminate | intros [_ (v' & Hv & _)]; discriminate].
Qed.

Lemma parseEdit_Throw (expression : string) (e : error) :
  parseEdit expression = Throw e ->
  e = ValidationError ("Invalid edit expression " ++ quoted expression).
Proof.
  unfold parseEdit. destruct (exec editPattern expression); [discriminate |].
  intros H. injection H as <-. reflexivity.
Qed.

Lemma strip_prefix_app (t s v : string) :
  strip_prefix t s = Some v <-> s = (t ++ v)%string.
Proof.
  revert s. induction t as [| a t IH]; intros s.
  - destruct s; cbn; split; congruence.
  - destruct s as [| b s]; cbn [strip_prefix append]; [split; discriminate |].
    destruct (Ascii.eqb_spec a b) as [<- | Hab].
    + rewrite IH. split; [intros ->; reflexivity | intros H; injection H; auto].
    + split; [discriminate | intros H; injection H; intros; congruence].
Qed.

(** X13: an edit expression is accepted exactly when it is a non-empty key
    of word characters, [=], and a value; the value runs to the first line
    terminator or the end and may hold further [=]. Every other expression
    is rejected with [Invalid edit expression "..."], the expression in
    quotes. *)
Theorem edit_expression_grammar (expression : string) :
  (forall e : edit,
      parseEdit expression = Ok e <->
      exists rest : string,
        expression = (edit_key e ++ "=" ++ edit_value e ++ rest)%string
        /\ is_empty (edit_key e) = false
        /\ all_chars word_char (edit_key e) = true
        /\ all_chars dot (edit_value e) = true
        /\ (rest = "" \/ exists c r, rest = String c r /\ dot c = false))
  /\ (forall e : error,
        parseEdit expression = Throw e ->
        e = ValidationError ("Invalid edit expression " ++ quoted expression)).
Proof.
  split; [| apply parseEdit_Throw].
  intros e. rewrite parseEdit_Ok. split.
  - intros [Hk (v & Hv & ->)]. cbn [edit_key edit_value].
    exists (drop_while dot v). apply strip_prefix_app in Hv.
    split; [| split; [exact Hk | split; [| split]]].
    + rewrite <- (take_drop_while_eq dot v), <- Hv. apply take_drop_while_eq.
    + apply all_chars_take_while.
    + apply all_chars_take_while.
    + apply drop_while_head.
  - intros (rest & -> & Hk & Hword & Hdot & Hrest).
    destruct e as [k v]. cbn [edit_key edit_value] in *.
    destruct (take_drop_while_app word_char k ("=" ++ v ++ rest) Hword eq_refl)
      as [-> ->].
    split; [exact Hk |]. exists (v ++ rest)%string. split; [reflexivity |].
    f_equal.
    assert (Hr : take_while dot rest = "").
    { destruct Hrest as [-> | (c & r & -> & Hc)]; [reflexivity |].
      cbn [take_while]. rewrite Hc. reflexivity. }
    destruct (take_drop_while_app dot v rest Hdot Hr) as [-> _]. reflexivity.
Qed.

(** ** Reading what the edits wrote *)

Lemma inherited_proto (k : string) :
  inherited k = JsUndefined -> k <> "__proto__".
Proof. intros H ->. discriminate. Qed.

Lemma obj_get_set_same (k : string) (v : js_value) (o : js_object) :
  k <> "__proto__" -> obj_get k (obj_set k v o) = v.
Proof. intros Hk. unfold obj_get. rewrite obj_set_written by exact Hk. reflexivity. Qed.

Lemma obj_get_set_other (k k' : string) (v : js_value) (o : js_object) :
  k' <> k -> obj_get k' (obj_set k v o) = obj_get k' o.
Proof. intros Hk. unfold obj_get. rewrite obj_set_frame by exact Hk. reflexivity. Qed.

Lemma actualValue_of_applyEdit (track : Track) (e : edit) (k : string) :
  inherited k = JsUndefined -> k <> "additional_info" ->
  actualValue_of (applyEdit track e) k
  = if String.eqb (edit_key e) k then JsString (edit_value e)
    else actualValue_of track k.
Proof.
  intros Hinh Hinfo. pose proof (inherited_proto k Hinh) as Hproto.
  apply String.eqb_neq in Hinfo.
  unfold actualValue_of, applyEdit, track_get.
  destruct (String.eqb_spec (edit_key e) k) as [-> | Hne].
  - destruct (String.eqb k "track_name"); [reflexivity |].
    destruct (String.eqb k "artist_name"); [reflexivity |].
    destruct (String.eqb k "release_name"); [reflexivity |].
    rewrite Hinfo, Hinh. cbn [js_coalesce info_of additional_info].
    apply obj_get_set_same; exact Hproto.
  - destruct (String.eqb_spec (edit_key e) "track_name") as [E1 |].
    { cbn [track_name artist_name release_name additional_info info_of].
      destruct (String.eqb_spec k "track_name") as [-> |]; [congruence | reflexivity]. }
    destruct (String.eqb_spec (edit_key e) "artist_name") as [E2 |].
    { cbn [track_name artist_name release_name additional_info info_of].
      destruct (String.eqb k "track_name"); [reflexivity |].
      destruct (String.eqb_spec k "artist_name") as [-> |]; [congruence | reflexivity]. }
    destruct (String.eqb_spec (edit_key e) "release_name") as [E3 |].
    { cbn [track_name artist_name release_name additional_info info_of].
      destruct (String.eqb k "track_name"); [reflexivity |].
      destruct (String.eqb k "artist_name"); [reflexivity |].
      destruct (String.eqb_spec k "release_name") as [-> |]; [congruence | reflexivity]. }
    cbn [track_name artist_name release_name additional_info info_of].
    rewrite obj_get_set_other by congruence.
    rewrite Hinfo. reflexivity.
Qed.

(** X14: after the mutator has run, the value the filter and the
    statistics read under a key is the value of the last edit that names the
    key, and is what it was before when no edit names it. This holds for the
    keys an object does not inherit a value for, [additional_info] itself
    apart. *)
Theorem last_edit_wins (edits : list edit) (listen : Listen) (k : string)
  (Hordinary : inherited k = JsUndefined)
  (Hinfo : k <> "additional_info") :
  actualValue_of (track_metadata (listenModifier (Some edits) listen)) k
  = match last_edit k edits with
    | Some e => JsString (edit_value e)
    | None => actualValue_of (track_metadata listen) k
    end.
Proof.
  cbn [listenModifier track_metadata]. unfold last_edit.
  generalize (track_metadata listen) as track.
  induction edits as [| e edits IH] using rev_ind; intros track; [reflexivity |].
  rewrite fold_left_app, rev_app_distr. cbn [fold_left rev app find].
  rewrite actualValue_of_applyEdit by assumption.
  destruct (String.eqb (edit_key e) k); [reflexivity | apply IH].
Qed.

Lemma obj_set_own_twice (k : string) (v1 v2 : js_value) (o : js_object) :
  obj_set_own k v2 (obj_set_own k v1 o) = obj_set_own k v2 o.
Proof.
  induction o as [| [k' v'] o IH]; cbn [obj_set_own].
  - rewrite String.eqb_refl. reflexivity.
  - destruct (String.eqb k' k) eqn:E; cbn [obj_set_own].
    + rewrite String.eqb_refl. reflexivity.
    + rewrite E, IH. reflexivity.
Qed.

Lemma obj_set_twice (k : string) (v1 v2 : js_value) (o : js_object) :
  obj_set k v2 (obj_set k v1 o) = obj_set k v2 o.
Proof.
  unfold obj_set. destruct (String.eqb k "__proto__").
  - destruct (obj_get_own k o) eqn:E.
    + rewrite obj_get_own_set_own_same. apply obj_set_own_twice.
    + rewrite E. reflexivity.
  - apply obj_set_own_twice.
Qed.

(** X15: of two edits to the same key, one after the other, only the
    second is left: the track is the one the second edit alone makes. In
    particular an edit applied twice is the edit applied once. *)
Theorem later_edit_overwrites (track : Track) (k v1 v2 : string) :
  applyEdit (applyEdit track (mkEdit k v1)) (mkEdit k v2)
  = applyEdit track (mkEdit k v2).
Proof.
  unfold applyEdit. cbn [edit_key edit_value].
  destruct (String.eqb k "track_name"); [reflexivity |].
  destruct (String.eqb k "artist_name"); [reflexivity |].
  destruct (String.eqb k "release_name"); [reflexivity |].
  cbn [track_name artist_name release_name additional_info info_of].
  rewrite obj_set_twice. reflexivity.
Qed.

(** ** The modifier as a whole *)

(** X16: without expressions the mutator leaves a listen as it is, and so
    does the mutator of an empty list of expressions. With expressions,
    [getListenModifier] returns the mutator of their edits, in order,
    exactly when every expression parses, and otherwise throws for the first
    expression that does not. *)
Theorem modifier_parses_expression_by_expression (expressions : list string) :
  (forall modify : Listen -> Listen,
      getListenModifier None = Ok modify -> forall listen, modify listen = listen)
  /\ (forall modify : Listen -> Listen,
        getListenModifier (Some expressions) = Ok modify <->
        exists edits : list edit,
          Forall2 (fun expression e => parseEdit expression = Ok e) expressions edits
          /\ modify = listenModifier (Some edits))
  /\ (forall e : error,
        getListenModifier (Some expressions) = Throw e <->
        exists l1 expression l2,
          expressions = (l1 ++ expression :: l2)%list
          /\ (forall x, In x l1 -> exists e', parseEdit x = Ok e')
          /\ (forall e', parseEdit expression <> Ok e')
          /\ e = ValidationError ("Invalid edit expression " ++ quoted expression))
  /\ (forall listen : Listen, listenModifier (Some []) listen = listen).
Proof.
  split; [| split; [| split]].
  - intros modify H. injection H as <-. reflexivity.
  - intros modify. cbn [getListenModifier].
    destruct (map_outcome parseEdit expressions) as [es |] eqn:Hes; cbn [obind].
    + apply map_outcome_Ok in Hes. split.
      * intros H. injection H as <-. exists es. auto.
      * intros (es' & Hes' & ->). apply map_outcome_Ok in Hes, Hes'.
        rewrite Hes in Hes'. injection Hes' as <-. reflexivity.
    + split; [discriminate |]. intros (es' & Hes' & _).
      apply map_outcome_Ok in Hes'. congruence.
  - intros e. cbn [getListenModifier].
    assert (Hmap : map_outcome parseEdit expressions = Throw e <->
                   (es <-- map_outcome parseEdit expressions ;;
                    Ok (listenModifier (Some es))) = Throw e).
    { destruct (map_outcome parseEdit expressions); cbn [obind];
        split; congruence. }
    rewrite <- Hmap, map_outcome_Throw. split.
    + intros (l1 & x & l2 & ys & -> & Hl1 & Hx).
      exists l1, x, l2. split; [reflexivity |]. split; [| split].
      * intros x' Hin. revert Hin. clear -Hl1.
        induction Hl1 as [| a b l l' Hab Hl IH]; [intros [] |].
        intros [<- | Hin]; [exists b; exact Hab | apply IH; exact Hin].
      * intros e' He'. congruence.
      * apply (parseEdit_Throw _ _ Hx).
    + intros (l1 & x & l2 & -> & Hl1 & Hx & ->).
      assert (Hys : exists ys, Forall2 (fun x y => parseEdit x = Ok y) l1 ys).
      { clear Hmap. induction l1 as [| a l1 IH]; [exists []; constructor |].
        destruct IH as [ys Hys]; [intros y Hy; apply Hl1; right; exact Hy |].
        destruct (Hl1 a (or_introl eq_refl)) as [b Hb].
        exists (b :: ys). constructor; assumption. }
      destruct Hys as [ys Hys]. exists l1, x, l2, ys.
      split; [reflexivity |]. split; [exact Hys |].
      destruct (parseEdit x) as [e' |] eqn:E; [destruct (Hx e' eq_refl) |].
      rewrite (parseEdit_Throw _ _ E). reflexivity.
  - intros [ts track]. reflexivity.
Qed.

Section Counting.

Local Open Scope Z_scope.

Lemma shr_1_exact (m : Z) :
  0 < m ->
  shr_1 (Build_shr_record (m * 2) false false) = Build_shr_record m false false.
Proof.
  destruct m as [| p | p]; try lia. intros _.
  replace (Zpos p * 2) with (Zpos (xO p)) by lia. reflexivity.
Qed.

Lemma iter_shr_1_exact (p : positive) :
  forall m : Z,
    0 < m ->
    iter_pos shr_1 p (Build_shr_record (m * 2 ^ Zpos p) false false)
    = Build_shr_record m false false.
Proof.
  induction p as [p IH | p IH |]; intros m Hm; cbn [iter_pos].
  - assert (Hp : 0 < 2 ^ Zpos p) by (apply Z.pow_pos_nonneg; lia).
    replace (m * 2 ^ Zpos p~1) with ((m * 2 ^ Zpos p * 2 ^ Zpos p) * 2).
    + rewrite shr_1_exact by nia. rewrite IH by nia. apply IH; exact Hm.
    + rewrite Pos2Z.inj_xI, Z.pow_add_r, Z.pow_twice_r by lia.
      change (2 ^ 1) with 2. ring.
  - assert (Hp : 0 < 2 ^ Zpos p) by (apply Z.pow_pos_nonneg; lia).
    replace (m * 2 ^ Zpos p~0) with (m * 2 ^ Zpos p * 2 ^ Zpos p).
    + rewrite IH by nia. apply IH; exact Hm.
    + rewrite (Pos2Z.inj_xO p), Z.pow_twice_r. ring.
  - change (2 ^ 1) with 2. apply shr_1_exact; exact Hm.
Qed.

(** A mantissa of 53 bits followed by [n] zero bits is rounded to itself. *)
Lemma binary_round_aux_exact (s : bool) (r : positive) (n e : Z) :
  Zpos (digits2_pos r) = 53 -> 0 <= n -> -1074 <= e + n <= 971 ->
  binary_round_aux prec emax s (Zpos r * 2 ^ n) e loc_Exact
  = S754_finite s r (e + n).
Proof.
  intros Hr Hn He. unfold binary_round_aux.
  assert (H1 : shr_fexp prec emax (Zpos r * 2 ^ n) e loc_Exact
               = (Build_shr_record (Zpos r) false false, e + n)).
  { unfold shr_fexp. rewrite Zdigits2_mul by lia. cbn [Zdigits2].
    rewrite Hr, fexp_eq. cbn [shr_record_of_loc].
    replace (Z.max (53 + n + e - 53) (-1074) - e) with n by lia.
    unfold shr. destruct n as [| p | p]; try lia.
    - rewrite Z.mul_1_r, Z.add_0_r. reflexivity.
    - rewrite iter_shr_1_exact by lia. reflexivity. }
  rewrite H1. cbn [shr_m loc_of_shr_record round_nearest_even].
  assert (H2 : shr_fexp prec emax (Zpos r) (e + n) loc_Exact
               = (Build_shr_record (Zpos r) false false, e + n)).
  { unfold shr_fexp. cbn [Zdigits2]. rewrite Hr, fexp_eq. cbn [shr_record_of_loc].
    replace (Z.max (53 + (e + n) - 53) (-1074) - (e + n)) with 0 by lia.
    reflexivity. }
  rewrite H2. cbn [shr_m].
  replace (e + n <=? emax - prec) with true; [reflexivity |].
  symmetry. apply Z.leb_le. unfold emax, prec. lia.
Qed.

(** The number an integer of at most 53 bits, written with [k] more zero
    bits, is normalized to. *)
Lemma binary_normalize_integer (q : positive) (k : Z) :
  Zpos (digits2_pos q) <= 53 -> 0 <= k ->
  binary_normalize prec emax (Zpos q * 2 ^ k) (- k) false
  = S754_finite false (Z.to_pos (Zpos q * 2 ^ (53 - Zpos (digits2_pos q))))
      (Zpos (digits2_pos q) - 53).
Proof.
  intros Hd Hk. set (d := Zpos (digits2_pos q)) in *.
  assert (Hd0 : 0 < d) by (unfold d; lia).
  assert (Hpk : 0 < 2 ^ k) by (apply Z.pow_pos_nonneg; lia).
  assert (Hpd : 0 < 2 ^ (53 - d)) by (apply Z.pow_pos_nonneg; lia).
  set (r := Z.to_pos (Zpos q * 2 ^ (53 - d))).
  assert (Hr : Zpos r = Zpos q * 2 ^ (53 - d)) by (unfold r; rewrite Z2Pos.id; nia).
  assert (Hrd : Zpos (digits2_pos r) = 53).
  { change (Zdigits2 (Zpos r) = 53). rewrite Hr, Zdigits2_mul by lia.
    cbn [Zdigits2]. fold d. lia. }
  destruct (Zpos q * 2 ^ k) as [| mq | mq] eqn:Hmq; try nia.
  cbn [binary_normalize]. unfold binary_round.
  assert (Hdq : Zpos (digits2_pos mq) = d + k).
  { change (Zdigits2 (Zpos mq) = d + k). rewrite <- Hmq, Zdigits2_mul by lia.
    reflexivity. }
  rewrite Hdq, fexp_eq.
  replace (Z.max (d + k + - k - 53) (-1074)) with (d - 53) by lia.
  unfold shl_align. destruct (d - 53 - - k) as [| p | p] eqn:Hp.
  - replace (Zpos mq) with (Zpos r * 2 ^ (k + d - 53)).
    + rewrite binary_round_aux_exact by lia. f_equal. lia.
    + rewrite Hr, <- Hmq, <- Z.mul_assoc, <- Z.pow_add_r by lia.
      f_equal. f_equal. lia.
  - replace (Zpos mq) with (Zpos r * 2 ^ (k + d - 53)).
    + rewrite binary_round_aux_exact by lia. f_equal. lia.
    + rewrite Hr, <- Hmq, <- Z.mul_assoc, <- Z.pow_add_r by lia.
      f_equal. f_equal. lia.
  - assert (Hit : Pos.iter xO mq p = r).
    { apply Pos2Z.inj. rewrite iter_xO, Hr.
      rewrite <- Hmq, <- Z.mul_assoc, <- Z.pow_add_r by lia.
      f_equal. f_equal. lia. }
    rewrite Hit. replace (Zpos r) with (Zpos r * 2 ^ 0) by (rewrite Z.mul_1_r; reflexivity).
    rewrite binary_round_aux_exact by lia. f_equal. lia.
Qed.

Lemma digits2_pos_small (q : positive) :
  Zpos q < 2 ^ 53 -> Zpos (digits2_pos q) <= 53.
Proof.
  intros Hq. pose proof (digits2_pos_bounds q) as [Hlo _].
  destruct (Z_le_gt_dec (Zpos (digits2_pos q)) 53) as [H | H]; [exact H |].
  exfalso. assert (2 ^ 53 <= 2 ^ (Zpos (digits2_pos q) - 1))
    by (apply Z.pow_le_mono_r; lia). lia.
Qed.

Lemma num_of_Z_pos (q : positive) :
  Zpos q < 2 ^ 53 ->
  num_of_Z (Zpos q)
  = S754_finite false (Z.to_pos (Zpos q * 2 ^ (53 - Zpos (digits2_pos q))))
      (Zpos (digits2_pos q) - 53).
Proof.
  intros Hq. unfold num_of_Z.
  rewrite <- (binary_normalize_integer q 0) by (try apply digits2_pos_small; lia).
  rewrite Z.mul_1_r. reflexivity.
Qed.

(** Addition is exact on the integers below [2 ^ 53]. *)
Lemma num_add_integers (a b : Z) :
  0 <= a -> 0 <= b -> a + b < 2 ^ 53 ->
  num_add (num_of_Z a) (num_of_Z b) = num_of_Z (a + b).
Proof.
  intros Ha Hb Hab.
  destruct a as [| p | p]; try lia; destruct b as [| q | q]; try lia.
  - reflexivity.
  - rewrite Z.add_0_l. rewrite (num_of_Z_pos q) by lia. reflexivity.
  - rewrite Z.add_0_r. rewrite (num_of_Z_pos p) by lia. reflexivity.
  - rewrite (num_of_Z_pos p), (num_of_Z_pos q) by lia.
    pose proof (digits2_pos_small p ltac:(lia)) as Hdp.
    pose proof (digits2_pos_small q ltac:(lia)) as Hdq.
    set (dp := Zpos (digits2_pos p)) in *. set (dq := Zpos (digits2_pos q)) in *.
    assert (Hdp0 : 0 < dp) by (unfold dp; lia).
    assert (Hdq0 : 0 < dq) by (unfold dq; lia).
    unfold num_add, SFadd. cbn [cond_Zopp].
    set (ez := Z.min (dp - 53) (dq - 53)).
    rewrite !shl_align_value by (unfold ez; lia).
    rewrite !Z2Pos.id
      by (apply Z.mul_pos_pos; [lia | apply Z.pow_pos_nonneg; lia]).
    replace (Zpos p * 2 ^ (53 - dp) * 2 ^ (dp - 53 - ez)
             + Zpos q * 2 ^ (53 - dq) * 2 ^ (dq - 53 - ez))
      with (Zpos (p + q) * 2 ^ (- ez)).
    + replace ez with (- - ez) at 2 by lia.
      rewrite binary_normalize_integer
        by (try (apply digits2_pos_small); unfold ez; lia).
      change (Zpos p + Zpos q) with (Zpos (p + q)).
      rewrite (num_of_Z_pos (p + q)) by lia. reflexivity.
    + rewrite <- !Z.mul_assoc, <- !Z.pow_add_r by (unfold ez; lia).
      replace (53 - dp + (dp - 53 - ez)) with (- ez) by lia.
      replace (53 - dq + (dq - 53 - ez)) with (- ez) by lia.
      rewrite Pos2Z.inj_add. ring.
Qed.

End Counting.

(** ** Statistics *)

Lemma makeValidIndexTypes_index (input : js_value) :
  forallb is_index (makeValidIndexTypes input) = true.
Proof.
  revert input. fix IH 1. intros [| | b | n | s | items | props | name];
    try reflexivity.
  cbn [makeValidIndexTypes]. induction items as [| x items IHitems]; [reflexivity |].
  cbn [flat_map]. rewrite forallb_app, IH, IHitems. reflexivity.
Qed.

Lemma makeValidIndexTypes_fixed (values : list js_value) :
  forallb is_index values = true ->
  flat_map makeValidIndexTypes values = values.
Proof.
  induction values as [| v values IH]; [reflexivity |].
  cbn [forallb flat_map]. intros H. apply andb_prop in H. destruct H as [Hv H].
  rewrite (IH H). destruct v; try discriminate; reflexivity.
Qed.

(** X17: [makeValidIndexTypes] returns strings and numbers only. Lists
    are flattened at every depth: the values of a list are those of its
    items one after the other, and the values of the result, read as a list
    again, are the result itself. A string or a number is its own and only
    value. *)
Theorem index_values_are_flat (input : js_value) :
  forallb is_index (makeValidIndexTypes input) = true
  /\ makeValidIndexTypes (JsArray (makeValidIndexTypes input))
     = makeValidIndexTypes input
  /\ (forall items1 items2 : list js_value,
         makeValidIndexTypes (JsArray (items1 ++ items2))
         = (makeValidIndexTypes (JsArray items1)
              ++ makeValidIndexTypes (JsArray items2))%list)
  /\ makeValidIndexTypes (JsArray [input]) = makeValidIndexTypes input
  /\ (is_index input = true -> makeValidIndexTypes input = [input]).
Proof.
  split; [apply makeValidIndexTypes_index |]. split; [| split; [| split]].
  - cbn [makeValidIndexTypes]. apply makeValidIndexTypes_fixed.
    apply makeValidIndexTypes_index.
  - intros items1 items2. cbn [makeValidIndexTypes]. apply flat_map_app.
  - cbn [makeValidIndexTypes flat_map]. apply app_nil_r.
  - destruct input; try discriminate; reflexivity.
Qed.

Lemma inherited_not_null (k : string) : inherited k <> JsNull.
Proof.
  unfold inherited. destruct (String.eqb k "__proto__"); [discriminate |].
  unfold Object_prototype. cbn [obj_get_own].
  repeat match goal with
         | |- context [if ?b then _ else _] => destruct b; [discriminate |]
         end.
  discriminate.
Qed.

(** X18: the statistics read the value of a key as the filter does:
    [track[key] ?? info?.[key]] with the namespace as it is, and
    [track[key] ?? info[key]] with an absent namespace replaced by an empty
    object, are the same value for every track and key. *)
Theorem statistics_read_what_the_filter_reads (track : Track) (k : string) :
  statisticsValue track k = actualValue_of track k.
Proof.
  unfold statisticsValue, actualValue_of, info_of.
  destruct (additional_info track) as [info |] eqn:Hinfo; [reflexivity |].
  unfold obj_get. cbn [obj_get_own]. unfold track_get. rewrite Hinfo.
  destruct (String.eqb_spec k "track_name") as [-> |];
    [destruct (track_name track); reflexivity |].
  destruct (String.eqb_spec k "artist_name") as [-> |];
    [destruct (artist_name track); reflexivity |].
  destruct (String.eqb_spec k "release_name") as [-> |];
    [destruct (release_name track); reflexivity |].
  destruct (String.eqb_spec k "additional_info") as [-> |]; [reflexivity |].
  pose proof (inherited_not_null k) as Hnull.
  destruct (inherited k); try reflexivity. congruence.
Qed.

Lemma fold_left_flat_map {A B C : Type} (f : A -> B -> A) (g : C -> list B)
  (l : list C) (a : A) :
  fold_left f (flat_map g l) a = fold_left (fun a x => fold_left f (g x) a) l a.
Proof.
  revert a. induction l as [| x l IH]; intros a; [reflexivity |].
  cbn [flat_map fold_left]. rewrite fold_left_app. apply IH.
Qed.














(** ** Import *)

Lemma batches_app (t1 t2 : list event) :
  batches (t1 ++ t2) = (batches t1 ++ batches t2)%list.
Proof. apply flat_map_app. Qed.

Lemma informed_app (t1 t2 : list event) :
  informed (t1 ++ t2) = (informed t1 ++ informed t2)%list.
Proof. apply flat_map_app. Qed.

Lemma batches_Warned (w : list string) : batches (map Warned w) = [].
Proof. induction w as [| x w IH]; [reflexivity | exact IH]. Qed.

Lemma informed_Warned (w : list string) : informed (map Warned w) = [].
Proof. induction w as [| x w IH]; [reflexivity | exact IH]. Qed.

Lemma after_events_Warned {A : Type} (w : list string) (m : T A) :
  batches (fst (after_events (map Warned w) m)) = batches (fst m)
  /\ informed (fst (after_events (map Warned w) m)) = informed (fst m)
  /\ snd (after_events (map Warned w) m) = snd m.
Proof.
  unfold after_events. cbn [fst snd].
  rewrite batches_app, informed_app, batches_Warned, informed_Warned. auto.
Qed.

Lemma importLoop_invariant (cleanListen : Listen -> Listen)
  (setSubmissionClient : Track -> string -> string -> Track)
  (version : string)
  (clientImport : list Listen -> outcome unit)
  (listenFilter : Listen -> M bool) (source : list Listen) :
  let submitted := newListen cleanListen setSubmissionClient version in
  let loop :=
    importLoop cleanListen setSubmissionClient version clientImport listenFilter in
  forall (listenBuffer : list Listen) (n : Z),
    (0 <= n)%Z -> (List.length listenBuffer < 100)%nat ->
    (n + Z.of_nat (List.length listenBuffer) + Z.of_nat (List.length source)
     < 2 ^ 53)%Z ->
    let trace := fst (loop source listenBuffer (num_of_Z n)) in
    Forall (fun b => List.length b = 100%nat) (batches trace)
    /\ informed trace = map num_of_Z (totals n (batches trace))
    /\ exists rest : list Listen,
         (listenBuffer ++ map submitted (accepted listenFilter source)
          = List.concat (batches trace) ++ rest)%list
         /\ forall (listenBuffer' : list Listen) (count' : number),
              snd (loop source listenBuffer (num_of_Z n))
              = Ok (listenBuffer', count') ->
              rest = listenBuffer'
              /\ (List.length listenBuffer' < 100)%nat
              /\ count'
                 = num_of_Z (n + Z.of_nat (List.length (List.concat (batches trace)))).
Proof.
  intros submitted loop.
  induction source as [| listen source IH]; intros B n Hn HB Hsmall.
  - cbn. split; [constructor |]. split; [reflexivity |]. exists B.
    rewrite app_nil_r. split; [reflexivity |]. intros B' c' H. injection H as <- <-.
    rewrite Z.add_0_r. auto.
  - cbn [List.length] in Hsmall. rewrite Nat2Z.inj_succ in Hsmall.
    subst loop. cbn [importLoop]. unfold accepted. cbn [filter].
    destruct (listenFilter listen) as [w [[|] | e]]; cbn [snd].
    + fold submitted.
      assert (HB1 : List.length (B ++ [submitted listen]) = S (List.length B))
        by (rewrite length_app; cbn [List.length]; lia).
      destruct (100 <=? List.length (B ++ [submitted listen]))%nat eqn:Hfull.
      * apply Nat.leb_le in Hfull.
        assert (H100 : List.length (B ++ [submitted listen]) = 100%nat) by lia.
        destruct (clientImport (B ++ [submitted listen])) as [u | e].
        -- rewrite H100. change (Z.of_nat 100) with 100%Z.
           rewrite num_add_integers by lia.
           specialize (IH [] (n + 100)%Z ltac:(lia) ltac:(cbn; lia)
                         ltac:(cbn [List.length]; lia)).
           cbv zeta in IH. destruct IH as (IH1 & IH2 & rest & IH3 & IH4).
           unfold after_events. cbn [fst snd].
           rewrite !batches_app, !informed_app, batches_Warned, informed_Warned.
           cbn [app batches informed flat_map totals List.concat map].
           rewrite H100. change (Z.of_nat 100) with 100%Z.
           split; [constructor; assumption |].
           split; [f_equal; exact IH2 |].
           exists rest. split.
           ++ cbn [app] in IH3. fold (accepted listenFilter source).
              rewrite <- app_assoc, <- IH3.
              rewrite <- app_assoc. reflexivity.
           ++ intros B' c' H. destruct (IH4 B' c' H) as (-> & HB' & ->).
              split; [reflexivity |]. split; [exact HB' |]. f_equal.
              rewrite length_app, H100. lia.
        -- cbn [fst snd]. rewrite batches_Warned, informed_Warned.
           split; [constructor |]. split; [reflexivity |].
           eexists. split; [reflexivity |]. discriminate.
      * apply Nat.leb_gt in Hfull.
        specialize (IH (B ++ [submitted listen])%list n Hn Hfull ltac:(lia)).
        cbv zeta in IH. destruct IH as (IH1 & IH2 & rest & IH3 & IH4).
        destruct (after_events_Warned w
                    (importLoop cleanListen setSubmissionClient version clientImport
                       listenFilter source (B ++ [submitted listen]) (num_of_Z n)))
          as (-> & -> & ->).
        split; [exact IH1 |]. split; [exact IH2 |]. exists rest.
        split; [| exact IH4].
        fold (accepted listenFilter source). rewrite <- IH3, <- app_assoc.
        reflexivity.
    + specialize (IH B n Hn HB ltac:(lia)).
      cbv zeta in IH. destruct IH as (IH1 & IH2 & rest & IH3 & IH4).
      destruct (after_events_Warned w
                  (importLoop cleanListen setSubmissionClient version clientImport
                     listenFilter source B (num_of_Z n)))
        as (-> & -> & ->).
      split; [exact IH1 |]. split; [exact IH2 |]. exists rest.
      split; [exact IH3 | exact IH4].
    + cbn [fst snd]. rewrite batches_Warned, informed_Warned.
      split; [constructor |]. split; [reflexivity |].
      eexists. split; [reflexivity |]. discriminate.
Qed.

Lemma totals_app (n : Z) (l1 l2 : list (list Listen)) :
  totals n (l1 ++ l2)
  = (totals n l1
       ++ totals (n + Z.of_nat (List.length (List.concat l1))) l2)%list.
Proof.
  revert n. induction l1 as [| b l1 IH]; intros n; cbn [app totals List.concat].
  - cbn [List.length]. rewrite Z.add_0_r. reflexivity.
  - rewrite IH, length_app, Nat2Z.inj_add, Z.add_assoc. reflexivity.
Qed.

Lemma last_cons {A : Type} (l : list A) :
  forall a d : A, last (a :: l) d = last l a.
Proof.
  induction l as [| b l IH]; intros a d; [reflexivity |].
  change (last (a :: b :: l) d) with (last (b :: l) d).
  rewrite (IH b d), (IH b a). reflexivity.
Qed.

Lemma last_totals (l : list (list Listen)) :
  forall n : Z,
    last (map num_of_Z (totals n l)) (num_of_Z n)
    = num_of_Z (n + Z.of_nat (List.length (List.concat l))).
Proof.
  induction l as [| b l IH]; intros n.
  - cbn. rewrite Z.add_0_r. reflexivity.
  - cbn [totals map List.concat]. rewrite length_app, Nat2Z.inj_add, Z.add_assoc.
    rewrite <- IH. apply last_cons.
Qed.

Lemma accepted_length (listenFilter : Listen -> M bool) (source : list Listen) :
  (List.length (accepted listenFilter source) <= List.length source)%nat.
Proof. apply filter_length_le. Qed.

(** X21: an import that ends without error has submitted the listens the
    predicate accepts, each cleaned and marked with the client, in the order
    of the source, none twice and none left out. Every batch but the last
    holds exactly 100 listens, the last from 1 to 100, and no batch is
    empty. The count shown after each batch is the number of listens
    submitted so far, the last one the number of accepted listens (for a
    source of fewer than [2 ^ 53] listens). *)
Theorem import_submits_in_batches (cleanListen : Listen -> Listen)
  (setSubmissionClient : Track -> string -> string -> Track)
  (version : string)
  (clientImport : list Listen -> outcome unit)
  (listenFilter : Listen -> M bool) (source : list Listen)
  (trace : list event)
  (Hrun : importListens cleanListen setSubmissionClient version clientImport
            listenFilter source = (trace, Ok tt))
  (Hsmall : (Z.of_nat (List.length source) < 2 ^ 53)%Z) :
  List.concat (batches trace)
  = map (newListen cleanListen setSubmissionClient version)
      (accepted listenFilter source)
  /\ (forall b, In b (removelast (batches trace)) -> List.length b = 100%nat)
  /\ (forall b, In b (batches trace) ->
                (1 <= List.length b <= 100)%nat)
  /\ informed trace = map num_of_Z (totals 0 (batches trace))
  /\ last (informed trace) zero
     = num_of_Z (Z.of_nat (List.length (accepted listenFilter source))).
Proof.
  unfold importListens in Hrun.
  pose proof (importLoop_invariant cleanListen setSubmissionClient version clientImport
                listenFilter source [] 0%Z ltac:(lia) ltac:(cbn; lia)
                ltac:(cbn [List.length]; lia)) as H.
  cbv zeta in H. change (num_of_Z 0) with zero in H.
  destruct (importLoop cleanListen setSubmissionClient version clientImport listenFilter
              source [] zero) as [t [[B c] | e]]; [| discriminate].
  cbn [fst snd app] in H. destruct H as (Hfull & Hinf & rest & Hall & Hok).
  destruct (Hok B c eq_refl) as (-> & HB & ->). clear Hok.
  rewrite Forall_forall in Hfull.
  pose proof (accepted_length listenFilter source) as Hlen.
  assert (Hsum : List.length (accepted listenFilter source)
                 = (List.length (List.concat (batches t)) + List.length B)%nat).
  { rewrite <- (length_map (newListen cleanListen setSubmissionClient version)), Hall.
    apply length_app. }
  destruct B as [| x B].
  - injection Hrun as <-. rewrite app_nil_r in Hall.
    split; [symmetry; exact Hall |]. split; [| split; [| split]].
    + intros b Hb. apply Hfull.
      destruct (batches t) as [| b0 bs]; [destruct Hb |].
      pose proof (@app_removelast_last _ (b0 :: bs) b0 ltac:(discriminate)) as E.
      rewrite E. apply in_or_app. left. exact Hb.
    + intros b Hb. rewrite (Hfull b Hb). lia.
    + exact Hinf.
    + rewrite Hinf. change zero with (num_of_Z 0). rewrite last_totals.
      rewrite Hsum. cbn [List.length]. f_equal. lia.
  - destruct (clientImport (x :: B)) as [u | e]; [| discriminate].
    injection Hrun as <-.
    rewrite batches_app, informed_app. cbn [batches informed flat_map app].
    rewrite concat_app. cbn [List.concat]. rewrite app_nil_r.
    split; [symmetry; exact Hall |]. split; [| split; [| split]].
    + rewrite removelast_last. exact Hfull.
    + intros b Hb. apply in_app_or in Hb. destruct Hb as [Hb | [<- | []]].
      * rewrite (Hfull b Hb). lia.
      * cbn [List.length] in *. lia.
    + rewrite totals_app, map_app, Hinf. cbn [totals map]. f_equal.
      rewrite Z.add_0_l.
      change (binary_round prec emax false (Pos.of_succ_nat (List.length B)) 0)
        with (num_of_Z (Z.of_nat (List.length (x :: B)))).
      rewrite num_add_integers by lia. reflexivity.
    + rewrite last_last. rewrite ?Z.add_0_l.
      change (binary_round prec emax false (Pos.of_succ_nat (List.length B)) 0)
        with (num_of_Z (Z.of_nat (List.length (x :: B)))).
      rewrite num_add_integers by lia.
      rewrite Hsum. f_equal. lia.
Qed.

(** X22: when the import ends with an error (of the predicate or of the
    client), what it has submitted before stays submitted: batches of
    exactly 100 listens that are, one after the other, the start of the
    accepted listens, with their running counts shown. *)
Theorem failed_import_keeps_what_it_sent (cleanListen : Listen -> Listen)
  (setSubmissionClient : Track -> string -> string -> Track)
  (version : string)
  (clientImport : list Listen -> outcome unit)
  (listenFilter : Listen -> M bool) (source : list Listen)
  (trace : list event) (e : error)
  (Hrun : importListens cleanListen setSubmissionClient version clientImport
            listenFilter source = (trace, Throw e))
  (Hsmall : (Z.of_nat (List.length source) < 2 ^ 53)%Z) :
  (forall b, In b (batches trace) -> List.length b = 100%nat)
  /\ (exists rest : list Listen,
         map (newListen cleanListen setSubmissionClient version)
           (accepted listenFilter source)
         = (List.concat (batches trace) ++ rest)%list)
  /\ informed trace = map num_of_Z (totals 0 (batches trace)).
Proof.
  unfold importListens in Hrun.
  pose proof (importLoop_invariant cleanListen setSubmissionClient version clientImport
                listenFilter source [] 0%Z ltac:(lia) ltac:(cbn; lia)
                ltac:(cbn [List.length]; lia)) as H.
  cbv zeta in H. change (num_of_Z 0) with zero in H.
  destruct (importLoop cleanListen setSubmissionClient version clientImport listenFilter
              source [] zero) as [t r].
  cbn [fst snd app] in H. destruct H as (Hfull & Hinf & rest & Hall & _).
  rewrite Forall_forall in Hfull.
  assert (Ht : trace = t).
  { destruct r as [[[| x B] c] | e']; [discriminate | | congruence].
    destruct (clientImport (x :: B)); [discriminate | congruence]. }
  subst t. split; [exact Hfull |]. split; [exists rest; exact Hall | exact Hinf].
Qed.

End Elbisaur.

(** ** The theorems at concrete inputs, on the sample host *)

Lemma xor_truthiness_witness :
  isArray (JsNumber one) = false
  /\ every (fun c => evaluate ordinalCompare integerToString c (JsNumber one))
       [mkCondition "skipped" OpXor (JsString "")]
     = ([], Ok true).
Proof.
  split; [reflexivity |].
  exact (proj1 (proj2
    (xor_truthiness ordinalCompare integerToString "skipped" "" (JsNumber one)
       eq_refl))).
Defined.


Lemma not_evaluable_is_satisfied_witness :
  isArray (JsArray [JsString "rock"; JsString "pop"]) = true
  /\ exists line : string,
       evaluate ordinalCompare integerToString
         (mkCondition "tags" OpEq (JsString "rock"))
         (JsArray [JsString "rock"; JsString "pop"])
       = ([line], Ok (JsBoolean true)).
Proof.
  split; [reflexivity |].
  destruct (not_evaluable_is_satisfied ordinalCompare integerToString
              (mkCondition "tags" OpEq (JsString "rock"))
              (JsArray [JsString "rock"; JsString "pop"])
              (or_introl eq_refl)) as [line [H _]].
  exists line. exact H.
Defined.

Lemma list_operand_semantics_witness :
  (is_scalar (JsString "b") = true
   /\ num_eq (ordinalCompare "b" "b") zero = true
   /\ num_eq (ordinalCompare "c" "a") zero = false
   /\ num_eq (ordinalCompare "c" "b") zero = false)
  /\ evaluate ordinalCompare integerToString
       (mkCondition "artist_name" OpNe (JsArray [JsString "a"; JsString "b"]))
       (JsString "c")
     = ([], Ok (JsBoolean true)).
Proof.
  split; [repeat split |].
  exact (proj2 (proj2 (proj2 (proj2
    (list_operand_semantics ordinalCompare integerToString "artist_name"
       (JsString "b") [JsString "a"; JsString "b"]
       eq_refl eq_refl eq_refl eq_refl))))).
Defined.

Lemma time_range_is_exclusive_witness :
  getListenFilter ordinalCompare integerToString epochSeconds sampleFiles
    sampleYaml None (mkOptions (Some "100") (Some "200") None None)
  = Ok (listenFilter ordinalCompare integerToString
          (num_of_Z 100) (num_of_Z 200) [])
  /\ listenFilter ordinalCompare integerToString
       (num_of_Z 100) (num_of_Z 200) [] (mkListen (num_of_Z 100) sampleTrack)
     = ([], Ok false).
Proof.
  assert (Hbuilt :
    getListenFilter ordinalCompare integerToString epochSeconds sampleFiles
      sampleYaml None (mkOptions (Some "100") (Some "200") None None)
    = Ok (listenFilter ordinalCompare integerToString
            (num_of_Z 100) (num_of_Z 200) [])) by reflexivity.
  split; [exact Hbuilt |].
  destruct (time_range_is_exclusive ordinalCompare integerToString
              epochSeconds sampleFiles sampleYaml _ _ _ Hbuilt)
    as [_ [conditions H]].
  exact (proj1 (proj2 (H (mkListen (num_of_Z 100) sampleTrack))) eq_refl).
Defined.

Lemma epoch_is_rejected_witness :
  (getListenFilter ordinalCompare integerToString epochSeconds sampleFiles
     sampleYaml None (mkOptions None None None None)
   = Ok (listenFilter ordinalCompare integerToString zero Infinity [])
   /\ after (mkOptions None None None None) = None
   /\ num_le (listened_at (mkListen zero sampleTrack)) zero = true)
  /\ listenFilter ordinalCompare integerToString zero Infinity []
       (mkListen zero sampleTrack)
     = ([], Ok false).
Proof.
  split; [repeat split |].
  exact (proj1
    (epoch_is_rejected ordinalCompare integerToString epochSeconds sampleFiles
       sampleYaml None (mkOptions None None None None)
       (listenFilter ordinalCompare integerToString zero Infinity [])
       (mkListen zero sampleTrack) eq_refl eq_refl eq_refl)).
Defined.

Lemma list_source_has_to_map_to_lists_witness :
  (is_empty "exclude.yaml" = false
   /\ sampleFiles "exclude.yaml" = Ok "artist_name: Foo"
   /\ sampleYaml "artist_name: Foo"
      = Ok (JsObject [("artist_name", JsString "Foo")])
   /\ Object_entries (JsObject [("artist_name", JsString "Foo")])
      = Ok [("artist_name", JsString "Foo")]
   /\ exists k v, In (k, v) [("artist_name", JsString "Foo")]
                  /\ isArray v = false)
  /\ getListenFilter ordinalCompare integerToString epochSeconds sampleFiles
       sampleYaml None (mkOptions None None (Some "exclude.yaml") None)
     = Throw (ValidationError
                (quoted "artist_name" ++ " from " ++ quoted "exclude.yaml"
                 ++ " has to be a list")).
Proof.
  assert (Hbad : exists k v, In (k, v) [("artist_name", JsString "Foo")]
                             /\ isArray v = false).
  { exists "artist_name", (JsString "Foo"). split; [left |]; reflexivity. }
  split; [repeat split; exact Hbad |].
  destruct (list_source_has_to_map_to_lists ordinalCompare integerToString
              epochSeconds sampleFiles sampleYaml
              "exclude.yaml" "artist_name: Foo"
              (JsObject [("artist_name", JsString "Foo")])
              [("artist_name", JsString "Foo")]
              eq_refl eq_refl eq_refl eq_refl Hbad)
    as (k & v & Hin & _ & _ & H).
  destruct Hin as [Hin | []]. injection Hin as <- _.
  apply (proj2 (H None (mkOptions None None (Some "exclude.yaml") None)
                  (or_introl eq_refl)) []); try reflexivity.
  left; reflexivity.
Defined.

(** ** The filter of the documentation, on two listens *)

Example skipped_listen_is_rejected :
  exists f,
    getListenFilter ordinalCompare integerToString epochSeconds sampleFiles
      sampleYaml (Some "skipped!=1&&duration_ms>=30e3")
      (mkOptions None None None None) = Ok f
    /\ f (mkListen (num_of_Z 1700000000)
            (mkTrack (JsString "Song") (JsString "Artist") JsUndefined
               (Some [("skipped", JsNumber one);
                      ("duration_ms", JsNumber (num_of_Z 50000))])))
       = ([], Ok false)
    /\ f (mkListen (num_of_Z 1700000000)
            (mkTrack (JsString "Song") (JsString "Artist") JsUndefined
               (Some [("skipped", JsNumber zero);
                      ("duration_ms", JsNumber (num_of_Z 40000))])))
       = ([], Ok true).
Proof. eexists. repeat split; reflexivity. Qed.

(** ** The further properties at concrete inputs *)

Lemma clause_round_trip_witness :
  (all_chars word_char "duration_ms" = true
   /\ is_empty "duration_ms" = false
   /\ all_chars dot "30e3" = true
   /\ starts_with "=" "30e3" = false)
  /\ parseCondition "duration_ms>30e3"
     = Ok (mkCondition "duration_ms" OpGt (JsString "30e3")).
Proof.
  split; [repeat split |].
  exact (clause_round_trip "duration_ms" "30e3" OpGt eq_refl eq_refl eq_refl
           (fun _ => eq_refl)).
Defined.

Lemma conditions_hold_no_separator_witness :
  (parseFilterSpecification (Some "skipped!=1&&duration_ms>=30e3")
   = Ok [mkCondition "skipped" OpNe (JsString "1");
         mkCondition "duration_ms" OpGe (JsString "30e3")]
   /\ In (mkCondition "skipped" OpNe (JsString "1"))
        [mkCondition "skipped" OpNe (JsString "1");
         mkCondition "duration_ms" OpGe (JsString "30e3")])
  /\ join "&&" (split "&&" "skipped!=1&&duration_ms>=30e3")
     = "skipped!=1&&duration_ms>=30e3".
Proof.
  split; [split; [reflexivity | left; reflexivity] |].
  exact (proj1
    (conditions_hold_no_separator "skipped!=1&&duration_ms>=30e3"
       [mkCondition "skipped" OpNe (JsString "1");
        mkCondition "duration_ms" OpGe (JsString "30e3")]
       (mkCondition "skipped" OpNe (JsString "1"))
       eq_refl (or_introl eq_refl))).
Defined.

Lemma built_predicate_warns_of_lists_only_witness :
  (getListenFilter ordinalCompare integerToString epochSeconds sampleFiles
     sampleYaml (Some "tags==rock") (mkOptions None None None None)
   = Ok (listenFilter ordinalCompare integerToString zero Infinity
           [mkCondition "tags" OpEq (JsString "rock")])
   /\ In (multiple_values_warning "tags")
        (fst (listenFilter ordinalCompare integerToString zero Infinity
                [mkCondition "tags" OpEq (JsString "rock")] taggedListen)))
  /\ exists k : string,
       multiple_values_warning "tags" = multiple_values_warning k
       /\ isArray (actualValue_of (track_metadata taggedListen) k) = true.
Proof.
  split; [split; [reflexivity | left; reflexivity] |].
  exact (built_predicate_warns_of_lists_only ordinalCompare integerToString
           epochSeconds sampleFiles sampleYaml (Some "tags==rock")
           (mkOptions None None None None)
           (listenFilter ordinalCompare integerToString zero Infinity
              [mkCondition "tags" OpEq (JsString "rock")])
           taggedListen (multiple_values_warning "tags")
           eq_refl (or_introl eq_refl)).
Defined.

Lemma list_source_document_witness :
  (sampleFiles "exclude.yaml" = Ok "artist_name: Foo"
   /\ sampleYaml "artist_name: Foo"
      = Ok (JsObject [("artist_name", JsString "Foo")]))
  /\ loadConditionsFromYaml sampleFiles sampleYaml "exclude.yaml" OpNe []
     = pushConditions "exclude.yaml" OpNe [("artist_name", JsString "Foo")] [].
Proof.
  split; [split; reflexivity |].
  exact (list_source_document sampleFiles sampleYaml "exclude.yaml"
           "artist_name: Foo" OpNe
           (JsObject [("artist_name", JsString "Foo")]) [] eq_refl eq_refl).
Defined.

Lemma list_sources_decide_witness :
  (num_le (listened_at taggedListen) zero = false
   /\ num_ge (listened_at taggedListen) Infinity = false
   /\ forallb (fun kv => isArray (snd kv))
        [("artist_name", JsArray [JsString "Foo"; JsString "Bar"])] = true
   /\ forallb (fun kv => isArray (snd kv))
        [("track_name", JsArray [JsString "Song"])] = true)
  /\ listenFilter ordinalCompare integerToString zero Infinity
       (source_conditions OpNe
          [("artist_name", JsArray [JsString "Foo"; JsString "Bar"])]
        ++ source_conditions OpEq [("track_name", JsArray [JsString "Song"])])
       taggedListen
     = ([], Ok true).
Proof.
  assert (Hscalar :
    forall k,
      In k (map fst
              ([("artist_name", JsArray [JsString "Foo"; JsString "Bar"])]
               ++ [("track_name", JsArray [JsString "Song"])])) ->
      is_scalar (actualValue_of (track_metadata taggedListen) k) = true)
    by (intros k [<- | [<- | []]]; reflexivity).
  split; [repeat split |].
  exact (list_sources_decide ordinalCompare integerToString zero Infinity
           [("artist_name", JsArray [JsString "Foo"; JsString "Bar"])]
           [("track_name", JsArray [JsString "Song"])]
           taggedListen eq_refl eq_refl eq_refl eq_refl Hscalar).
Defined.


Lemma last_edit_wins_witness :
  (inherited "artist_name" = JsUndefined /\ "artist_name" <> "additional_info")
  /\ actualValue_of
       (track_metadata
          (listenModifier
             (Some [mkEdit "artist_name" "A"; mkEdit "mood" "calm";
                    mkEdit "artist_name" "B"])
             taggedListen))
       "artist_name"
     = JsString "B".
Proof.
  assert (Hinfo : "artist_name" <> "additional_info") by discriminate.
  split; [split; [reflexivity | exact Hinfo] |].
  exact (last_edit_wins
           [mkEdit "artist_name" "A"; mkEdit "mood" "calm";
            mkEdit "artist_name" "B"]
           taggedListen "artist_name" eq_refl Hinfo).
Defined.



Lemma import_submits_in_batches_witness :
  (importListens keepListen keepTrack "1.0" acceptBatch acceptAll
     (repeat taggedListen 101)
   = ([Imported (repeat taggedListen 100); Informed (num_of_Z 100);
       Imported [taggedListen]; Informed (num_of_Z 101)], Ok tt)
   /\ (Z.of_nat (List.length (repeat taggedListen 101)) < 2 ^ 53)%Z)
  /\ last (informed
             [Imported (repeat taggedListen 100); Informed (num_of_Z 100);
              Imported [taggedListen]; Informed (num_of_Z 101)]) zero
     = num_of_Z
         (Z.of_nat (List.length (accepted acceptAll (repeat taggedListen 101)))).
Proof.
  assert (Hrun :
    importListens keepListen keepTrack "1.0" acceptBatch acceptAll
      (repeat taggedListen 101)
    = ([Imported (repeat taggedListen 100); Informed (num_of_Z 100);
        Imported [taggedListen]; Informed (num_of_Z 101)], Ok tt))
    by (vm_compute; reflexivity).
  assert (Hsmall :
    (Z.of_nat (List.length (repeat taggedListen 101)) < 2 ^ 53)%Z)
    by reflexivity.
  split; [split; assumption |].
  exact (proj2 (proj2 (proj2 (proj2
    (import_submits_in_batches keepListen keepTrack "1.0" acceptBatch
       acceptAll (repeat taggedListen 101) _ Hrun Hsmall))))).
Defined.

Lemma failed_import_keeps_what_it_sent_witness :
  (importListens keepListen keepTrack "1.0" acceptFullBatch acceptAll
     (repeat taggedListen 101)
   = ([Imported (repeat taggedListen 100); Informed (num_of_Z 100)],
      Throw (HostError "offline"))
   /\ (Z.of_nat (List.length (repeat taggedListen 101)) < 2 ^ 53)%Z)
  /\ forall b,
       In b (batches
               [Imported (repeat taggedListen 100); Informed (num_of_Z 100)]) ->
       List.length b = 100%nat.
Proof.
  assert (Hrun :
    importListens keepListen keepTrack "1.0" acceptFullBatch acceptAll
      (repeat taggedListen 101)
    = ([Imported (repeat taggedListen 100); Informed (num_of_Z 100)],
       Throw (HostError "offline")))
    by (vm_compute; reflexivity).
  assert (Hsmall :
    (Z.of_nat (List.length (repeat taggedListen 101)) < 2 ^ 53)%Z)
    by reflexivity.
  split; [split; assumption |].
  exact (proj1
    (failed_import_keeps_what_it_sent keepListen keepTrack "1.0"
       acceptFullBatch acceptAll (repeat taggedListen 101) _ _ Hrun Hsmall)).
Defined.
